(** * Device kernels of the tensor backend: strided indexing, division,
      relu and 2d pooling

    A shallow embedding of [binary_div.cu], the pooling kernels and the
    relu derivative.  Unsigned machine integers are values of [Z] with
    the wrap-around written out; the scalar element type of the templated
    kernels is a type class, instantiated for binary32 and binary64 with
    the IEEE 754 specification of the Standard Library; device buffers
    are maps from element offsets to values. *)

From Stdlib Require Import ZArith List Bool Lia Permutation.
From Stdlib Require Import Floats.SpecFloat.
Import ListNotations.
Local Open Scope Z_scope.

(* ================================================================= *)
(** ** Machine integers *)

(** [size_t] is 64 bits wide and [unsigned int] 32 bits wide on the
    device. *)
Definition wrap64 (z : Z) : Z := z mod 2 ^ 64.
Definition wrap32 (z : Z) : Z := z mod 2 ^ 32.

Definition add64 (a b : Z) : Z := wrap64 (a + b).
Definition sub64 (a b : Z) : Z := wrap64 (a - b).
Definition mul64 (a b : Z) : Z := wrap64 (a * b).

Definition is_size_t (z : Z) : Prop := 0 <= z < 2 ^ 64.

(** The values [0, 1, ..., n-1] of a counting [for] loop. *)
Definition zrange (n : Z) : list Z := map Z.of_nat (seq 0 (Z.to_nat n)).

(* ================================================================= *)
(** ** Scalars *)

(** The operations the kernels use on their element type [T]
    ([float] or [double]). *)
Class Scalar (T : Type) : Type := {
  fzero : T;                      (* the literal 0.0 *)
  fone : T;                       (* the literal 1.0 *)
  finfinity : T;                  (* INFINITY *)
  fneg : T -> T;                  (* unary minus *)
  fadd : T -> T -> T;
  fmul : T -> T -> T;
  fdiv : T -> T -> T;
  feqb : T -> T -> bool;          (* == *)
  fltb : T -> T -> bool;          (* <  *)
  of_size_t : Z -> T;             (* static_cast<T>(size_t) *)
  maxNonAtomic : T -> T -> T;     (* fmaxf / fmax *)
  minNonAtomic : T -> T -> T;     (* fminf / fmin *)
  one_div_double : T -> T         (* the expression 1.0 / y, of type double, stored in a T *)
}.

(** *** IEEE 754 instances *)

Section IEEE.
Variables prec emax : Z.

Definition SFis_nan (x : spec_float) : bool :=
  match x with S754_nan => true | _ => false end.

(** [fmax] of the device library: a NaN argument is missing data, and
    of two zeros the positive one is the larger. *)
Definition SFmax (a b : spec_float) : spec_float :=
  match SFcompare a b with
  | None => if SFis_nan a then b else a
  | Some Lt => b
  | Some Gt => a
  | Some Eq =>
      match a with
      | S754_zero true => b
      | _ => a
      end
  end.

Definition SFmin (a b : spec_float) : spec_float :=
  match SFcompare a b with
  | None => if SFis_nan a then b else a
  | Some Lt => a
  | Some Gt => b
  | Some Eq =>
      match a with
      | S754_zero false => b
      | _ => a
      end
  end.

(** Conversion of a float into the format [prec], [emax], rounding to
    nearest even. *)
Definition SFconvert (x : spec_float) : spec_float :=
  match x with
  | S754_finite s m e => binary_normalize prec emax (cond_Zopp s (Zpos m)) e s
  | _ => x
  end.

Definition SFof_size_t (n : Z) : spec_float :=
  binary_normalize prec emax n 0 false.
End IEEE.

(** [1.0 / y] is computed in double precision whatever the type of [y],
    since the literal is a double. *)
Definition SFone_div_double (prec emax : Z) (y : spec_float) : spec_float :=
  SFconvert prec emax (SFdiv 53 1024 (SFone 53 1024) (SFconvert 53 1024 y)).

Definition ieee (prec emax : Z) : Scalar spec_float := {|
  fzero := S754_zero false;
  fone := SFone prec emax;
  finfinity := S754_infinity false;
  fneg := SFopp;
  fadd := SFadd prec emax;
  fmul := SFmul prec emax;
  fdiv := SFdiv prec emax;
  feqb := SFeqb;
  fltb := SFltb;
  of_size_t := SFof_size_t prec emax;
  maxNonAtomic := SFmax;
  minNonAtomic := SFmin;
  one_div_double := SFone_div_double prec emax
|}.

Definition binary32 : Scalar spec_float := ieee 24 128.
Definition binary64 : Scalar spec_float := ieee 53 1024.

(* ================================================================= *)
(** ** Device buffers *)

(** A buffer is what a pointer of the kernel points to: a value at each
    element offset. *)
Definition buf (T : Type) : Type := Z -> T.

Definition upd {T : Type} (b : buf T) (i : Z) (v : T) : buf T :=
  fun j => if j =? i then v else b j.

(** A buffer with the elements of a list at offsets [0, 1, ...] and [d]
    elsewhere. *)
Definition buf_of_list {T : Type} (d : T) (l : list T) : buf T :=
  fun j => if j <? 0 then d else nth (Z.to_nat j) l d.

(* ================================================================= *)
(** ** relu *)

Section Relu.
Context {T : Type} {S : Scalar T}.

(** The derivative argument of [UNARY_OP] in relu.cu:
    [x > 0.0 ? 1.0 : 0.0]. *)
Definition relu_derivative (x : T) : T :=
  if fltb fzero x then fone else fzero.

(** The forward argument: [fmaxf(x, 0.0)]. *)
Definition relu_forward (x : T) : T := maxNonAtomic x fzero.
End Relu.

(* ================================================================= *)
(** ** Strided index resolver *)

(** Modelled from the spec: [get_strided_index] is declared in
    cuda_utils.cuh, which is not among the sources.  The flat index is
    decomposed by repeated division and remainder against the shape,
    from the innermost dimension [num_dims - 1] to the outermost, with a
    running remainder [idx]; each coordinate times its stride is added
    to the offset [acc].  [n] counts the dimensions that are left, so the
    dimension handled next is [n - 1]. *)
Fixpoint get_strided_index_loop (n : nat) (idx acc : Z)
    (dims strides : list Z) : Z :=
  match n with
  | O => acc
  | S d =>
      get_strided_index_loop d
        (idx / nth d dims 0)
        (acc + (idx mod nth d dims 0) * nth d strides 0)
        dims strides
  end.

Definition get_strided_index (idx num_dims : Z) (dims strides : list Z) : Z :=
  get_strided_index_loop (Z.to_nat num_dims) idx 0 dims strides.

(** *** The reference computation *)

(** Row-major multi-index of a flat index in the first [n] dimensions of
    [shape]: the last coordinate varies fastest. *)
Fixpoint unravel (n : nat) (idx : Z) (shape : list Z) : list Z :=
  match n with
  | O => []
  | S d => unravel d (idx / nth d shape 0) shape ++ [idx mod nth d shape 0]
  end.

(** Dot product of a multi-index with the strides. *)
Fixpoint dot (mi strides : list Z) : Z :=
  match mi, strides with
  | m :: mi', s :: strides' => m * s + dot mi' strides'
  | _, _ => 0
  end.

(** Flat index of a multi-index in row-major order (Horner scheme over
    the shape). *)
Definition ravel (mi shape : list Z) : Z :=
  fold_left (fun acc ms => acc * snd ms + fst ms) (combine mi shape) 0.

Definition product (shape : list Z) : Z := fold_right Z.mul 1 shape.

(* ================================================================= *)
(** ** Binary division *)

Section BinaryDiv.
Context {T : Type} {S : Scalar T}.

(** The arguments of a launch that no thread writes. *)
Record div_args : Type := {
  numel : Z;
  num_dims : Z;
  dims : list Z;
  lhs : buf T;
  lhs_strides : list Z;
  rhs : buf T;
  rhs_strides : list Z;
  out_strides : list Z
}.

(** The offsets of thread [i], each stored in an [unsigned int]. *)
Definition lhs_index (a : div_args) (i : Z) : Z :=
  wrap32 (get_strided_index i (num_dims a) (dims a) (lhs_strides a)).
Definition rhs_index (a : div_args) (i : Z) : Z :=
  wrap32 (get_strided_index i (num_dims a) (dims a) (rhs_strides a)).
Definition out_index (a : div_args) (i : Z) : Z :=
  wrap32 (get_strided_index i (num_dims a) (dims a) (out_strides a)).

(** [binary_div_forward]: thread [i] on the output buffer. *)
Definition binary_div_forward (a : div_args) (out : buf T) (i : Z) : buf T :=
  if numel a <=? i then out
  else upd out (out_index a i) (fdiv (lhs a (lhs_index a i)) (rhs a (rhs_index a i))).

(** The memory [binary_div_backward] writes. *)
Record div_grads : Type := {
  grad_lhs : buf T;
  grad_rhs : buf T
}.

(** One [atomicAdd]: an indivisible read-modify-write of one element. *)
Inductive atomic_add : Type :=
| AddLhs (addr : Z) (v : T)
| AddRhs (addr : Z) (v : T).

Definition apply_atomic (g : div_grads) (e : atomic_add) : div_grads :=
  match e with
  | AddLhs addr v =>
      {| grad_lhs := upd (grad_lhs g) addr (fadd (grad_lhs g addr) v);
         grad_rhs := grad_rhs g |}
  | AddRhs addr v =>
      {| grad_lhs := grad_lhs g;
         grad_rhs := upd (grad_rhs g) addr (fadd (grad_rhs g addr) v) |}
  end.

(** The two products thread [i] adds. *)
Definition div_lhs_term (a : div_args) (grad_out : buf T) (i : Z) : T :=
  let y := rhs a (rhs_index a i) in
  let go := grad_out (out_index a i) in
  let dfdx := one_div_double y in
  fmul dfdx go.

Definition div_rhs_term (a : div_args) (grad_out : buf T) (i : Z) : T :=
  let x := lhs a (lhs_index a i) in
  let y := rhs a (rhs_index a i) in
  let go := grad_out (out_index a i) in
  let dfdy := fdiv (fneg x) (fmul y y) in
  fmul dfdy go.

(** [binary_div_backward]: the atomic operations of thread [i], in
    program order.  What it reads ([lhs], [rhs], [grad_out]) no thread
    writes, so the operands do not depend on the other threads. *)
Definition binary_div_backward (a : div_args) (grad_out : buf T) (i : Z)
    : list atomic_add :=
  if numel a <=? i then []
  else [AddLhs (lhs_index a i) (div_lhs_term a grad_out i);
        AddRhs (rhs_index a i) (div_rhs_term a grad_out i)].

(** The memory after a sequence of atomic operations. *)
Definition run_atomics (tr : list atomic_add) (g : div_grads) : div_grads :=
  fold_left apply_atomic tr g.

(** A launch of [nthreads] threads: the atomic operations of all
    threads.  An execution performs them one at a time in some order,
    so its trace is a permutation of this list. *)
Definition div_backward_atomics (a : div_args) (grad_out : buf T)
    (nthreads : Z) : list atomic_add :=
  flat_map (binary_div_backward a grad_out) (zrange nthreads).

(** The values added to element [o] of [grad_rhs] (of [grad_lhs]), in
    the order of the trace. *)
Definition rhs_added (o : Z) (tr : list atomic_add) : list T :=
  flat_map (fun e => match e with
                     | AddRhs addr v => if addr =? o then [v] else []
                     | AddLhs _ _ => []
                     end) tr.

Definition lhs_added (o : Z) (tr : list atomic_add) : list T :=
  flat_map (fun e => match e with
                     | AddLhs addr v => if addr =? o then [v] else []
                     | AddRhs _ _ => []
                     end) tr.

(** Sum of a list of scalars from an initial value, left to right. *)
Definition fsum (init : T) (l : list T) : T := fold_left fadd l init.
End BinaryDiv.

(* ================================================================= *)
(** ** 2d pooling *)

Record Pool2dOp : Type := {
  kernel : Z;
  stride : Z;
  padding : Z;
  batch : Z;
  chan : Z;
  h_in : Z;
  h_out : Z;
  w_in : Z;
  w_out : Z
}.

(** All fields are [size_t]. *)
Definition wf_op (op : Pool2dOp) : Prop :=
  is_size_t (kernel op) /\ is_size_t (stride op) /\ is_size_t (padding op) /\
  is_size_t (batch op) /\ is_size_t (chan op) /\
  is_size_t (h_in op) /\ is_size_t (h_out op) /\
  is_size_t (w_in op) /\ is_size_t (w_out op).

(** [op.batch * op.chan * op.h_out * op.w_out] and its input analogue. *)
Definition numel_out (op : Pool2dOp) : Z :=
  mul64 (mul64 (mul64 (batch op) (chan op)) (h_out op)) (w_out op).
Definition numel_in (op : Pool2dOp) : Z :=
  mul64 (mul64 (mul64 (batch op) (chan op)) (h_in op)) (w_in op).

(** The coordinates [(b, c, h, w)] of the flat index [i] in a tensor of
    dimensions [d0 x d1 x d2 x d3]; the running [idx] is an
    [unsigned int]. *)
Definition decode4 (i d0 d1 d2 d3 : Z) : Z * Z * Z * Z :=
  let idx := i in
  let w := idx mod d3 in
  let idx := wrap32 (idx / d3) in
  let h := idx mod d2 in
  let idx := wrap32 (idx / d2) in
  let c := idx mod d1 in
  let idx := wrap32 (idx / d1) in
  let b := idx mod d0 in
  (b, c, h, w).

(** [b * s[0] + c * s[1] + h * s[2] + w * s[3]] in [size_t]. *)
Definition strided4 (s : list Z) (b c h w : Z) : Z :=
  add64 (add64 (add64 (mul64 b (nth 0 s 0)) (mul64 c (nth 1 s 0)))
               (mul64 h (nth 2 s 0)))
        (mul64 w (nth 3 s 0)).

(** The four guards of a forward window offset [(k1, k2)] at the output
    position [(oh, ow)]: the input position read, or [None] when the
    iteration is left by [continue]. *)
Definition fwd_window (op : Pool2dOp) (oh ow k1 k2 : Z) : option (Z * Z) :=
  let y_plus_p := add64 (mul64 oh (stride op)) k1 in
  if y_plus_p <? padding op then None else
  let y := sub64 y_plus_p (padding op) in
  if h_in op <=? y then None else
  let x_plus_p := add64 (mul64 ow (stride op)) k2 in
  if x_plus_p <? padding op then None else
  let x := sub64 x_plus_p (padding op) in
  if w_in op <=? x then None else
  Some (y, x).

(** What one iteration of a backward window loop finds for the input
    position [(y, x)]. *)
Inductive candidate : Type :=
| Undefined                 (* remainder of a division by zero *)
| Skipped                   (* left by [continue] *)
| Visited (oh ow : Z).      (* the output position that is read *)

Definition bwd_candidate (op : Pool2dOp) (y x k1 k2 : Z) : candidate :=
  let oh := add64 y (padding op) in
  if oh <? k1 then Skipped else
  let oh := sub64 oh k1 in
  if stride op =? 0 then Undefined else
  if negb (oh mod stride op =? 0) then Skipped else
  let oh := oh / stride op in
  if h_out op <=? oh then Skipped else
  let ow := add64 x (padding op) in
  if ow <? k2 then Skipped else
  let ow := sub64 ow k2 in
  if negb (ow mod stride op =? 0) then Skipped else
  let ow := ow / stride op in
  if w_out op <=? ow then Skipped else
  Visited oh ow.

(** [for k1 < n: for k2 < n: acc = body(acc, k1, k2)]. *)
Definition window_loop {A : Type} (n : Z) (body : A -> Z -> Z -> A) (init : A) : A :=
  fold_left
    (fun acc k1 => fold_left (fun acc k2 => body acc k1 k2) (zrange n) acc)
    (zrange n) init.

(** The same loop for a body that can be undefined. *)
Definition window_loop_opt {A : Type} (n : Z) (body : A -> Z -> Z -> option A)
    (init : A) : option A :=
  window_loop n
    (fun acc k1 k2 => match acc with Some a => body a k1 k2 | None => None end)
    (Some init).

(** A launch runs the threads of a schedule one after the other. *)
Definition launch {M : Type} (thread : M -> Z -> option M) (sched : list Z)
    (m : M) : option M :=
  fold_left (fun om i => match om with Some m' => thread m' i | None => None end)
    sched (Some m).

Section Pool2d.
Context {T : Type} {S : Scalar T}.

(** *** Forward kernels: thread [i] on the output buffer *)

Definition avg_pool2d_forward (op : Pool2dOp) (inp_strides out_strides : list Z)
    (inp out : buf T) (i : Z) : buf T :=
  if numel_out op <=? i then out else
  let '(b, c, oh, ow) := decode4 i (batch op) (chan op) (h_out op) (w_out op) in
  let tmp :=
    window_loop (kernel op)
      (fun tmp k1 k2 =>
         match fwd_window op oh ow k1 k2 with
         | None => tmp
         | Some (y, x) => fadd tmp (inp (strided4 inp_strides b c y x))
         end) fzero in
  let tmp := fdiv tmp (of_size_t (mul64 (kernel op) (kernel op))) in
  upd out i tmp.

Definition max_pool2d_forward (op : Pool2dOp) (inp_strides out_strides : list Z)
    (inp out : buf T) (i : Z) : buf T :=
  if numel_out op <=? i then out else
  let '(b, c, oh, ow) := decode4 i (batch op) (chan op) (h_out op) (w_out op) in
  let tmp :=
    window_loop (kernel op)
      (fun tmp k1 k2 =>
         match fwd_window op oh ow k1 k2 with
         | None => tmp
         | Some (y, x) => maxNonAtomic tmp (inp (strided4 inp_strides b c y x))
         end) (fneg finfinity) in
  upd out i tmp.

Definition min_pool2d_forward (op : Pool2dOp) (inp_strides out_strides : list Z)
    (inp out : buf T) (i : Z) : buf T :=
  if numel_out op <=? i then out else
  let '(b, c, oh, ow) := decode4 i (batch op) (chan op) (h_out op) (w_out op) in
  let tmp :=
    window_loop (kernel op)
      (fun tmp k1 k2 =>
         match fwd_window op oh ow k1 k2 with
         | None => tmp
         | Some (y, x) => minNonAtomic tmp (inp (strided4 inp_strides b c y x))
         end) finfinity in
  upd out i tmp.

(** *** Backward kernels: thread [i] on the four buffers *)

Record pool_mem : Type := {
  inp : buf T;
  grad_inp : buf T;
  out : buf T;
  grad_out : buf T
}.

Definition set_grad_inp (m : pool_mem) (g : buf T) : pool_mem :=
  {| inp := inp m; grad_inp := g; out := out m; grad_out := grad_out m |}.

(** The value of [tmp] after the window loop of [avg_pool2d_backward]. *)
Definition avg_backward_tmp (op : Pool2dOp) (out_strides : list Z)
    (m : pool_mem) (i : Z) : option T :=
  let '(b, c, y, x) := decode4 i (batch op) (chan op) (h_in op) (w_in op) in
  window_loop_opt (kernel op)
    (fun tmp k1 k2 =>
       match bwd_candidate op y x k1 k2 with
       | Undefined => None
       | Skipped => Some tmp
       | Visited oh ow =>
           let out_i := strided4 out_strides b c oh ow in
           Some (fadd tmp (grad_out m out_i))
       end) fzero.

Definition avg_pool2d_backward (op : Pool2dOp) (inp_strides out_strides : list Z)
    (m : pool_mem) (i : Z) : option pool_mem :=
  if numel_in op <=? i then Some m else
  match avg_backward_tmp op out_strides m i with
  | None => None
  | Some tmp =>
      Some (set_grad_inp m
              (upd (grad_inp m) i
                 (fadd (grad_inp m i)
                    (fdiv tmp (of_size_t (mul64 (kernel op) (kernel op)))))))
  end.

(** The value of [tmp] after the window loop of [max_pool2d_backward]
    and of [min_pool2d_backward], whose loops are the same text. *)
Definition select_backward_tmp (op : Pool2dOp) (out_strides : list Z)
    (m : pool_mem) (i : Z) : option T :=
  let '(b, c, y, x) := decode4 i (batch op) (chan op) (h_in op) (w_in op) in
  let inp_v := inp m i in
  window_loop_opt (kernel op)
    (fun tmp k1 k2 =>
       match bwd_candidate op y x k1 k2 with
       | Undefined => None
       | Skipped => Some tmp
       | Visited oh ow =>
           let out_i := strided4 out_strides b c oh ow in
           if feqb (out m out_i) inp_v
           then Some (fadd tmp (grad_out m out_i))
           else Some tmp
       end) fzero.

Definition max_pool2d_backward (op : Pool2dOp) (inp_strides out_strides : list Z)
    (m : pool_mem) (i : Z) : option pool_mem :=
  if numel_in op <=? i then Some m else
  match select_backward_tmp op out_strides m i with
  | None => None
  | Some tmp => Some (set_grad_inp m (upd (grad_inp m) i (fadd (grad_inp m i) tmp)))
  end.

Definition min_pool2d_backward (op : Pool2dOp) (inp_strides out_strides : list Z)
    (m : pool_mem) (i : Z) : option pool_mem :=
  if numel_in op <=? i then Some m else
  match select_backward_tmp op out_strides m i with
  | None => None
  | Some tmp => Some (set_grad_inp m (upd (grad_inp m) i (fadd (grad_inp m i) tmp)))
  end.
End Pool2d.

(* ================================================================= *)
(** ** Declarative counterparts of the window loops *)

(** The window offsets [(k1, k2)] in the order of the nested loops. *)
Definition offsets (n : Z) : list (Z * Z) :=
  flat_map (fun k1 => map (fun k2 => (k1, k2)) (zrange n)) (zrange n).

(** The input positions the forward window of [(oh, ow)] reads. *)
Definition fwd_inputs (op : Pool2dOp) (oh ow : Z) : list (Z * Z) :=
  flat_map (fun k => match fwd_window op oh ow (fst k) (snd k) with
                     | Some p => [p]
                     | None => []
                     end) (offsets (kernel op)).

(** The output positions the backward loop of [(y, x)] reads. *)
Definition bwd_visited (op : Pool2dOp) (y x : Z) : list (Z * Z) :=
  flat_map (fun k => match bwd_candidate op y x (fst k) (snd k) with
                     | Visited oh ow => [(oh, ow)]
                     | _ => []
                     end) (offsets (kernel op)).

(** The forward window of the output position [(oh, ow)] covers the
    input position [(y, x)]. *)
Definition covers (op : Pool2dOp) (oh ow y x : Z) : Prop :=
  exists k1 k2, 0 <= k1 < kernel op /\ 0 <= k2 < kernel op /\
                fwd_window op oh ow k1 k2 = Some (y, x).

(** A passing candidate is an output position whose window reads the
    input position at the same offset, and conversely. *)
Definition backward_recovers_forward (op : Pool2dOp) : Prop :=
  forall y x k1 k2 oh ow,
    0 <= y < h_in op -> 0 <= x < w_in op ->
    0 <= k1 < kernel op -> 0 <= k2 < kernel op ->
    0 <= oh < h_out op -> 0 <= ow < w_out op ->
    (bwd_candidate op y x k1 k2 = Visited oh ow <->
     fwd_window op oh ow k1 k2 = Some (y, x)).

(** No coordinate computation of the descriptor leaves the range of
    [size_t]. *)
Definition no_wrap (op : Pool2dOp) : Prop :=
  h_in op + padding op <= 2 ^ 64 /\
  w_in op + padding op <= 2 ^ 64 /\
  (forall o k, 0 <= o < h_out op -> 0 <= k < kernel op ->
               o * stride op + k < 2 ^ 64) /\
  (forall o k, 0 <= o < w_out op -> 0 <= k < kernel op ->
               o * stride op + k < 2 ^ 64).

(** Every offset of the window of [(oh, ow)] reads an input element. *)
Definition fully_in_bounds (op : Pool2dOp) (oh ow : Z) : Prop :=
  forall k1 k2, 0 <= k1 < kernel op -> 0 <= k2 < kernel op ->
                fwd_window op oh ow k1 k2 <> None.

(** Some offset of the window of [(oh, ow)] lies in the padding or
    beyond the input. *)
Definition extends_outside (op : Pool2dOp) (oh ow : Z) : Prop :=
  exists k1 k2, 0 <= k1 < kernel op /\ 0 <= k2 < kernel op /\
                fwd_window op oh ow k1 k2 = None.

(** No offset of the window of [(oh, ow)] reads an input element. *)
Definition all_skipped (op : Pool2dOp) (oh ow : Z) : Prop :=
  forall k1 k2, 0 <= k1 < kernel op -> 0 <= k2 < kernel op ->
                fwd_window op oh ow k1 k2 = None.

(** The scalar type counts exactly up to [E]: adding 1.0 to the
    conversion of [n] gives the conversion of [n + 1], and quotients of
    such conversions compare with 1.0 as the integers do. *)
Record counts_exactly {T : Type} {S : Scalar T} (E : Z) : Prop := {
  cnt_zero : of_size_t 0 = fzero;
  cnt_succ : forall n, 0 <= n < E -> fadd (of_size_t n) fone = of_size_t (n + 1);
  cnt_div_self : forall n, 0 < n <= E -> fdiv (of_size_t n) (of_size_t n) = fone;
  cnt_div_less : forall m n, 0 <= m < n -> n <= E ->
                 fltb (fdiv (of_size_t m) (of_size_t n)) fone = true
}.

(** Structural equality of floats. *)
Definition sf_eqb (a b : spec_float) : bool :=
  match a, b with
  | S754_zero s, S754_zero s' => Bool.eqb s s'
  | S754_infinity s, S754_infinity s' => Bool.eqb s s'
  | S754_nan, S754_nan => true
  | S754_finite s m e, S754_finite s' m' e' =>
      Bool.eqb s s' && Pos.eqb m m' && Z.eqb e e'
  | _, _ => false
  end.

(* ================================================================= *)
(** ** What a backward launch adds *)

Section PoolContributions.
Context {T : Type} {S : Scalar T}.

(** The offsets into [out] and [grad_out] that the backward loop of
    thread [i] reads, in loop order. *)
Definition visited_offsets (op : Pool2dOp) (out_strides : list Z) (i : Z) : list Z :=
  let '(b, c, y, x) := decode4 i (batch op) (chan op) (h_in op) (w_in op) in
  map (fun p => strided4 out_strides b c (fst p) (snd p)) (bwd_visited op y x).

(** The window contribution of avg-pool backward to the input
    position [i]. *)
Definition avg_contribution (op : Pool2dOp) (out_strides : list Z)
    (m : pool_mem) (i : Z) : T :=
  fdiv (fsum fzero (map (grad_out m) (visited_offsets op out_strides i)))
       (of_size_t (mul64 (kernel op) (kernel op))).

(** The visited offsets whose stored output equals the input value of
    thread [i]. *)
Definition selected_offsets (op : Pool2dOp) (out_strides : list Z)
    (m : pool_mem) (i : Z) : list Z :=
  filter (fun o => feqb (out m o) (inp m i)) (visited_offsets op out_strides i).

(** The window contribution of max-pool and min-pool backward to the
    input position [i]. *)
Definition select_contribution (op : Pool2dOp) (out_strides : list Z)
    (m : pool_mem) (i : Z) : T :=
  fsum fzero (map (grad_out m) (selected_offsets op out_strides m i)).

(** A thread that adds [contrib] to its own gradient entry when its
    index is below [n]. *)
Definition accumulate_thread (n : Z) (contrib : pool_mem -> Z -> T)
    (m : pool_mem) (i : Z) : pool_mem :=
  if n <=? i then m
  else set_grad_inp m (upd (grad_inp m) i (fadd (grad_inp m i) (contrib m i))).

(** A launch of [thread] only adds: whatever the schedule of distinct
    thread indices, the launch is defined, every gradient entry of a
    scheduled index below [n] is its old value plus its contribution,
    every other entry is unchanged, and so are the other three
    buffers. *)
Definition accumulates (thread : pool_mem -> Z -> option pool_mem) (n : Z)
    (contrib : pool_mem -> Z -> T) : Prop :=
  forall (sched : list Z) (m : pool_mem),
    NoDup sched -> Forall (fun i => 0 <= i) sched ->
    exists m',
      launch thread sched m = Some m' /\
      inp m' = inp m /\ out m' = out m /\ grad_out m' = grad_out m /\
      (forall j, In j sched -> j < n ->
                 grad_inp m' j = fadd (grad_inp m j) (contrib m j)) /\
      (forall j, ~ In j sched \/ n <= j -> grad_inp m' j = grad_inp m j).

(** Threads with distinct indices write distinct gradient entries: each
    leaves every entry but its own as it was, so neither sees the write
    of the other, and both orders give the same gradient buffer. *)
Definition writes_disjoint (thread : @pool_mem T -> Z -> option (@pool_mem T)) : Prop :=
  forall (m : @pool_mem T) (i1 i2 : Z),
    i1 <> i2 ->
    exists m1 m2 m12 m21 : @pool_mem T,
      thread m i1 = Some m1 /\ thread m i2 = Some m2 /\
      thread m1 i2 = Some m12 /\ thread m2 i1 = Some m21 /\
      (forall j, j <> i1 -> grad_inp m1 j = grad_inp m j) /\
      (forall j, j <> i2 -> grad_inp m2 j = grad_inp m j) /\
      grad_inp m12 i1 = grad_inp m1 i1 /\
      grad_inp m21 i2 = grad_inp m2 i2 /\
      (forall j, grad_inp m12 j = grad_inp m21 j).

(** The memory [m] with another input buffer. *)
Definition set_inp (m : pool_mem) (v : buf T) : pool_mem :=
  {| inp := v; grad_inp := grad_inp m; out := out m; grad_out := grad_out m |}.
End PoolContributions.

(* ================================================================= *)
(** ** Concrete descriptors *)

(** A 2x2 input under a 1x1 kernel whose padding and stride are the
    largest [size_t]; the 3x3 output size is the one of the standard
    formula, floor((2 + 2 * padding - 1) / stride) + 1.  For [y = 1] the
    padded coordinate [y + padding] is [2 ^ 64] and wraps around to 0. *)
Definition overflow_op : Pool2dOp := {|
  kernel := 1; stride := 2 ^ 64 - 1; padding := 2 ^ 64 - 1;
  batch := 1; chan := 1; h_in := 2; h_out := 3; w_in := 2; w_out := 3
|}.

(** A 4x4 input pooled by a 2x2 kernel with stride 2 and padding 1 into
    a 3x3 output. *)
Definition padded_op : Pool2dOp := {|
  kernel := 2; stride := 2; padding := 1;
  batch := 1; chan := 1; h_in := 4; h_out := 3; w_in := 4; w_out := 3
|}.

(** A kernel of size zero over a 1x1 input. *)
Definition zero_kernel_op : Pool2dOp := {|
  kernel := 0; stride := 1; padding := 0;
  batch := 1; chan := 1; h_in := 1; h_out := 2; w_in := 1; w_out := 2
|}.

(** A 1x1 input under a 1x1 kernel with padding 2: the windows of the
    border outputs lie in the padding. *)
Definition border_op : Pool2dOp := {|
  kernel := 1; stride := 1; padding := 2;
  batch := 1; chan := 1; h_in := 1; h_out := 5; w_in := 1; w_out := 5
|}.

(** A 2x2 input pooled by one 2x2 window. *)
Definition single_window_op : Pool2dOp := {|
  kernel := 2; stride := 2; padding := 0;
  batch := 1; chan := 1; h_in := 2; h_out := 1; w_in := 2; w_out := 1
|}.

(** Memory after the forward pass of max-pool over the input
    [[5, 5], [1, 2]], whose maximum is duplicated, with output gradient
    3 and a zero input gradient. *)
Definition tie_mem : @pool_mem spec_float := {|
  inp := buf_of_list S754_nan (map (SFof_size_t 24 128) [5; 5; 1; 2]);
  grad_inp := buf_of_list S754_nan (map (SFof_size_t 24 128) [0; 0; 0; 0]);
  out := buf_of_list S754_nan (map (SFof_size_t 24 128) [5]);
  grad_out := buf_of_list S754_nan (map (SFof_size_t 24 128) [3])
|}.

(** A 2x3 division whose right operand has three elements and is
    broadcast over the first dimension. *)
Definition broadcast_args : @div_args spec_float := {|
  numel := 6;
  num_dims := 2;
  dims := [2; 3];
  lhs := buf_of_list S754_nan (map (SFof_size_t 24 128) [1; 2; 3; 4; 5; 6]);
  lhs_strides := [3; 1];
  rhs := buf_of_list S754_nan (map (SFof_size_t 24 128) [1; 2; 4]);
  rhs_strides := [0; 1];
  out_strides := [3; 1]
|}.

(* ================================================================= *)
(** ** Contiguous tensors *)

(** The row-major strides of a tensor of dimensions
    [d0 x d1 x d2 x d3]. *)
Definition contiguous4 (d0 d1 d2 d3 : Z) : list Z :=
  [d1 * d2 * d3; d2 * d3; d3; 1].

Definition inp_contiguous (op : Pool2dOp) : list Z :=
  contiguous4 (batch op) (chan op) (h_in op) (w_in op).

Definition out_contiguous (op : Pool2dOp) : list Z :=
  contiguous4 (batch op) (chan op) (h_out op) (w_out op).

(** The element counts without wrap-around. *)
Definition count_in (op : Pool2dOp) : Z := batch op * chan op * h_in op * w_in op.
Definition count_out (op : Pool2dOp) : Z := batch op * chan op * h_out op * w_out op.

(** A forward launch runs the threads of a schedule one after the other
    on the output buffer. *)
Definition launch_forward {T : Type} (thread : buf T -> Z -> buf T)
    (sched : list Z) (out : buf T) : buf T :=
  fold_left thread sched out.

(* ================================================================= *)
(** ** sqrt *)

(** The literal 0.5, a double. *)
Definition SFhalf_double : spec_float := S754_finite false 4503599627370496 (-53).

(** The forward argument of [UNARY_OP] for sqrt: [sqrtf(x)], [sqrt(x)]. *)
Definition sqrt_forward (prec emax : Z) (x : spec_float) : spec_float :=
  SFsqrt prec emax x.

(** The derivative argument: [0.5 / sqrtf(x)].  The literal is a double,
    so the quotient is computed in double precision; it is stored in the
    type of the kernel. *)
Definition sqrt_derivative (prec emax : Z) (x : spec_float) : spec_float :=
  SFconvert prec emax
    (SFdiv 53 1024 SFhalf_double (SFconvert 53 1024 (SFsqrt prec emax x))).

(* ================================================================= *)
(** ** Half-precision maximum and minimum that keep NaN *)

(** [__hmax_nan] and [__hmin_nan]; the intrinsics [__hmax] and [__hmin]
    they fall back to are parameters. *)
Definition hmax_nan (hmax : spec_float -> spec_float -> spec_float)
    (a b : spec_float) : spec_float :=
  if SFis_nan a then a else if SFis_nan b then b else hmax a b.

Definition hmin_nan (hmin : spec_float -> spec_float -> spec_float)
    (a b : spec_float) : spec_float :=
  if SFis_nan a then a else if SFis_nan b then b else hmin a b.

(* ================================================================= *)
(** ** What a forward thread reads *)

(** The offsets into [inp] that the window loop of forward thread [i]
    reads, in loop order. *)
Definition forward_reads (op : Pool2dOp) (inp_strides : list Z) (i : Z) : list Z :=
  let '(b, c, oh, ow) := decode4 i (batch op) (chan op) (h_out op) (w_out op) in
  map (fun p => strided4 inp_strides b c (fst p) (snd p)) (fwd_inputs op oh ow).

(* ================================================================= *)
(** * Properties *)

(** ** Integers and loops *)

Lemma wrap64_small (z : Z) : 0 <= z < 2 ^ 64 -> wrap64 z = z.
Proof. intros H. unfold wrap64. now apply Z.mod_small. Qed.

Lemma wrap32_small (z : Z) : 0 <= z < 2 ^ 32 -> wrap32 z = z.
Proof. intros H. unfold wrap32. now apply Z.mod_small. Qed.

Lemma wrap64_range (z : Z) : 0 <= wrap64 z < 2 ^ 64.
Proof. unfold wrap64. apply Z.mod_pos_bound. lia. Qed.

Lemma in_zrange (n k : Z) : In k (zrange n) <-> 0 <= k < n.
Proof.
  unfold zrange. rewrite in_map_iff. split.
  - intros [j [<- Hj]]. apply in_seq in Hj. lia.
  - intros Hk. exists (Z.to_nat k). split; [lia|]. apply in_seq. lia.
Qed.

Lemma zrange_nodup (n : Z) : NoDup (zrange n).
Proof.
  unfold zrange. apply Finite.Injective_map_NoDup.
  - intros a b Hab. lia.
  - apply seq_NoDup.
Qed.

Lemma in_offsets (n k1 k2 : Z) :
  In (k1, k2) (offsets n) <-> 0 <= k1 < n /\ 0 <= k2 < n.
Proof.
  unfold offsets. rewrite in_flat_map. split.
  - intros [a [Ha Hin]]. apply in_map_iff in Hin. destruct Hin as [b [Heq Hb]].
    inversion Heq; subst. apply in_zrange in Ha. apply in_zrange in Hb. tauto.
  - intros [H1 H2]. exists k1. split; [now apply in_zrange|].
    apply in_map_iff. exists k2. split; [reflexivity|now apply in_zrange].
Qed.

Lemma fold_left_pairs {A : Type} (body : A -> Z -> Z -> A) (l1 l2 : list Z) (init : A) :
  fold_left (fun acc k1 => fold_left (fun acc k2 => body acc k1 k2) l2 acc) l1 init =
  fold_left (fun acc k => body acc (fst k) (snd k))
    (flat_map (fun k1 => map (fun k2 => (k1, k2)) l2) l1) init.
Proof.
  revert init. induction l1 as [|k1 l1 IH]; intros init; simpl; [reflexivity|].
  rewrite fold_left_app, IH. f_equal.
  generalize init. clear. induction l2 as [|k2 l2 IH2]; intros init; simpl;
    [reflexivity|apply IH2].
Qed.

(** The nested loops are one loop over the offsets. *)
Lemma window_loop_offsets {A : Type} (n : Z) (body : A -> Z -> Z -> A) (init : A) :
  window_loop n body init =
  fold_left (fun acc k => body acc (fst k) (snd k)) (offsets n) init.
Proof. apply fold_left_pairs. Qed.

(* ================================================================= *)
(** ** Strided index resolver *)

Lemma unravel_length (n : nat) (idx : Z) (shape : list Z) :
  length (unravel n idx shape) = n.
Proof.
  revert idx. induction n as [|d IH]; intros idx; simpl; [reflexivity|].
  rewrite length_app, IH. simpl. lia.
Qed.

Lemma dot_snoc (l strides : list Z) (m : Z) :
  dot (l ++ [m]) strides = dot l strides + m * nth (length l) strides 0.
Proof.
  revert strides. induction l as [|a l IH]; intros [|s strides]; simpl.
  - lia.
  - lia.
  - lia.
  - rewrite IH. lia.
Qed.

Lemma get_strided_index_loop_dot (n : nat) (idx acc : Z) (dims strides : list Z) :
  get_strided_index_loop n idx acc dims strides =
  acc + dot (unravel n idx dims) strides.
Proof.
  revert idx acc. induction n as [|d IH]; intros idx acc; simpl; [lia|].
  rewrite IH, dot_snoc, unravel_length. lia.
Qed.

Lemma product_snoc (l : list Z) (t : Z) : product (l ++ [t]) = product l * t.
Proof.
  unfold product. induction l as [|a l IH]; cbn [fold_right app]; [ring|].
  rewrite IH. ring.
Qed.

Lemma product_firstn_pos (shape : list Z) (n : nat) :
  Forall (fun d => 0 < d) shape -> 0 < product (firstn n shape).
Proof.
  intros H. revert n. induction H as [|a l Ha Hl IH]; intros [|n]; simpl;
    try (unfold product; simpl; lia).
  specialize (IH n). unfold product in *. simpl. nia.
Qed.

Lemma combine_snoc {A B : Type} (l1 : list A) (l2 : list B) (a : A) (b : B) :
  length l1 = length l2 ->
  combine (l1 ++ [a]) (l2 ++ [b]) = combine l1 l2 ++ [(a, b)].
Proof.
  revert l2. induction l1 as [|x l1 IH]; intros [|y l2] Hl; simpl in *;
    try discriminate; [reflexivity|].
  f_equal. apply IH. lia.
Qed.

Lemma ravel_snoc (mi shape : list Z) (m s : Z) :
  length mi = length shape ->
  ravel (mi ++ [m]) (shape ++ [s]) = ravel mi shape * s + m.
Proof.
  intros Hl. unfold ravel. rewrite combine_snoc by exact Hl.
  rewrite fold_left_app. reflexivity.
Qed.

Lemma firstn_succ_nth (shape : list Z) (d : nat) :
  (d < length shape)%nat ->
  firstn (S d) shape = firstn d shape ++ [nth d shape 0].
Proof.
  revert d. induction shape as [|a l IH]; intros d Hd; simpl in Hd; [lia|].
  destruct d as [|d]; simpl; [reflexivity|]. rewrite <- IH by lia. reflexivity.
Qed.

Lemma ravel_unravel_mod (shape : list Z) (n : nat) (idx : Z) :
  Forall (fun d => 0 < d) shape -> (n <= length shape)%nat ->
  ravel (unravel n idx shape) (firstn n shape) = idx mod product (firstn n shape).
Proof.
  intros Hpos. revert idx. induction n as [|d IH]; intros idx Hn.
  - simpl. unfold ravel, product. simpl. now rewrite Z.mod_1_r.
  - simpl unravel. rewrite firstn_succ_nth by lia.
    rewrite ravel_snoc by (rewrite unravel_length, length_firstn; lia).
    rewrite IH by lia. rewrite product_snoc.
    assert (Hs : 0 < nth d shape 0).
    { rewrite Forall_forall in Hpos. apply Hpos. apply nth_In. lia. }
    pose proof (product_firstn_pos shape d Hpos) as Hp.
    rewrite (Z.mul_comm (product (firstn d shape))).
    rewrite Z.rem_mul_r by lia. lia.
Qed.

Lemma unravel_bounds (shape : list Z) (n : nat) (idx : Z) (d : nat) :
  Forall (fun s => 0 < s) shape -> (n <= length shape)%nat -> (d < n)%nat ->
  0 <= nth d (unravel n idx shape) 0 < nth d shape 0.
Proof.
  intros Hpos. revert idx. induction n as [|n' IH]; intros idx Hn Hd; [lia|].
  simpl. destruct (Nat.eq_dec d n') as [->|Hne].
  - rewrite app_nth2 by (rewrite unravel_length; lia).
    rewrite unravel_length, Nat.sub_diag. simpl.
    apply Z.mod_pos_bound. rewrite Forall_forall in Hpos. apply Hpos, nth_In. lia.
  - rewrite app_nth1 by (rewrite unravel_length; lia). apply IH; lia.
Qed.

Lemma product_pos_factors (shape : list Z) :
  Forall (fun d => 0 <= d) shape -> 0 < product shape ->
  Forall (fun d => 0 < d) shape.
Proof.
  intros H. induction H as [|a l Ha Hl IH]; intros Hp; constructor.
  - unfold product in Hp. cbn [fold_right] in Hp. apply Z.lt_0_mul in Hp. lia.
  - apply IH. unfold product in *. cbn [fold_right] in Hp.
    apply Z.lt_0_mul in Hp. lia.
Qed.

(** C1: for a flat index below the product of the shape, the resolver
    returns the dot product with the strides of the row-major multi-index
    of the flat index; that multi-index has one coordinate per dimension,
    each below its dimension size, and flattens back to the flat index. *)
Theorem get_strided_index_reference (flat_index : Z) (shape strides : list Z) :
  Forall (fun d => 0 <= d) shape ->
  length strides = length shape ->
  0 <= flat_index < product shape ->
  let mi := unravel (length shape) flat_index shape in
  get_strided_index flat_index (Z.of_nat (length shape)) shape strides = dot mi strides /\
  length mi = length shape /\
  (forall d, (d < length shape)%nat -> 0 <= nth d mi 0 < nth d shape 0) /\
  ravel mi shape = flat_index.
Proof.
  intros Hnn Hlen Hidx mi. subst mi.
  assert (Hpos : Forall (fun d => 0 < d) shape)
    by (apply product_pos_factors; [exact Hnn|lia]).
  repeat split.
  - unfold get_strided_index. rewrite Nat2Z.id, get_strided_index_loop_dot. lia.
  - apply unravel_length.
  - apply unravel_bounds; auto.
  - apply unravel_bounds; auto.
  - pose proof (ravel_unravel_mod shape (length shape) flat_index Hpos (le_n _)) as H.
    rewrite firstn_all in H. rewrite H. apply Z.mod_small. exact Hidx.
Qed.

Lemma get_strided_index_reference_witness :
  let mi := unravel 3 5 [2; 3; 2] in
  get_strided_index 5 3 [2; 3; 2] [6; 0; 1] = dot mi [6; 0; 1] /\
  length mi = 3%nat /\
  (forall d, (d < 3)%nat -> 0 <= nth d mi 0 < nth d [2; 3; 2] 0) /\
  ravel mi [2; 3; 2] = 5.
Proof.
  apply (get_strided_index_reference 5 [2; 3; 2] [6; 0; 1]).
  - repeat constructor; lia.
  - reflexivity.
  - unfold product; simpl; lia.
Defined.

(* ================================================================= *)
(** ** relu *)

(** C7: in both floating-point formats the relu derivative is exactly
    1.0 for every input above zero and exactly 0.0 for every input at
    most zero; both zeros are classified as 0. *)
Theorem relu_backward_derivative (prec emax : Z) (x : spec_float) :
  (SFltb (S754_zero false) x = true ->
   @relu_derivative _ (ieee prec emax) x = SFone prec emax) /\
  (SFleb x (S754_zero false) = true ->
   @relu_derivative _ (ieee prec emax) x = S754_zero false) /\
  @relu_derivative _ (ieee prec emax) (S754_zero false) = S754_zero false /\
  @relu_derivative _ (ieee prec emax) (S754_zero true) = S754_zero false.
Proof.
  unfold relu_derivative. cbn [fltb fzero fone ieee].
  repeat split.
  - intros H. now rewrite H.
  - intros H. replace (SFltb (S754_zero false) x) with false; [reflexivity|].
    destruct x as [[|]|[|]| |[|] m e]; try reflexivity; discriminate H.
Qed.

Lemma relu_backward_derivative_witness :
  @relu_derivative _ binary32 (S754_finite false 12582912 (-22)) = SFone 24 128 /\
  @relu_derivative _ binary32 (S754_finite true 12582912 (-22)) = S754_zero false.
Proof.
  split.
  - exact (proj1 (relu_backward_derivative 24 128
                    (S754_finite false 12582912 (-22))) eq_refl).
  - exact (proj1 (proj2 (relu_backward_derivative 24 128
                           (S754_finite true 12582912 (-22)))) eq_refl).
Defined.

(* ================================================================= *)
(** ** Pooling: the window index maps *)

Ltac bool_to_prop :=
  repeat match goal with
  | H : (_ <? _) = true |- _ => apply Z.ltb_lt in H
  | H : (_ <? _) = false |- _ => apply Z.ltb_ge in H
  | H : (_ <=? _) = true |- _ => apply Z.leb_le in H
  | H : (_ <=? _) = false |- _ => apply Z.leb_gt in H
  | H : (_ =? _) = true |- _ => apply Z.eqb_eq in H
  | H : (_ =? _) = false |- _ => apply Z.eqb_neq in H
  | H : negb _ = true |- _ => apply negb_true_iff in H
  | H : negb _ = false |- _ => apply negb_false_iff in H
  end.

(** The guards of one backward iteration, when the padded coordinates
    stay in range. *)
Lemma bwd_candidate_visited (op : Pool2dOp) (y x k1 k2 oh ow : Z) :
  0 < stride op -> 0 <= padding op ->
  0 <= y -> 0 <= x -> 0 <= k1 -> 0 <= k2 ->
  y + padding op < 2 ^ 64 -> x + padding op < 2 ^ 64 ->
  (bwd_candidate op y x k1 k2 = Visited oh ow <->
   (k1 <= y + padding op /\ (y + padding op - k1) mod stride op = 0 /\
    oh = (y + padding op - k1) / stride op /\ oh < h_out op) /\
   (k2 <= x + padding op /\ (x + padding op - k2) mod stride op = 0 /\
    ow = (x + padding op - k2) / stride op /\ ow < w_out op)).
Proof.
  intros Hs Hp Hy Hx Hk1 Hk2 Hyp Hxp. unfold bwd_candidate.
  unfold add64. rewrite !wrap64_small by lia.
  destruct (y + padding op <? k1) eqn:E1; bool_to_prop;
    [split; [discriminate|lia]|].
  unfold sub64. rewrite (wrap64_small (y + padding op - k1)) by lia.
  destruct (stride op =? 0) eqn:E0; bool_to_prop; [lia|].
  destruct (negb ((y + padding op - k1) mod stride op =? 0)) eqn:E2; bool_to_prop;
    [split; [discriminate|lia]|].
  destruct (h_out op <=? (y + padding op - k1) / stride op) eqn:E3; bool_to_prop;
    [split; [discriminate|lia]|].
  destruct (x + padding op <? k2) eqn:E4; bool_to_prop;
    [split; [discriminate|lia]|].
  rewrite (wrap64_small (x + padding op - k2)) by lia.
  destruct (negb ((x + padding op - k2) mod stride op =? 0)) eqn:E5; bool_to_prop;
    [split; [discriminate|lia]|].
  destruct (w_out op <=? (x + padding op - k2) / stride op) eqn:E6; bool_to_prop;
    [split; [discriminate|lia]|].
  split.
  - intros H. inversion H; subst. lia.
  - intros [[_ [_ [-> _]]] [_ [_ [-> _]]]]. reflexivity.
Qed.

(** The guards of one forward iteration, when the padded coordinates
    stay in range. *)
Lemma fwd_window_some (op : Pool2dOp) (oh ow k1 k2 y x : Z) :
  0 <= stride op -> 0 <= padding op ->
  0 <= oh -> 0 <= ow -> 0 <= k1 -> 0 <= k2 ->
  oh * stride op + k1 < 2 ^ 64 -> ow * stride op + k2 < 2 ^ 64 ->
  (fwd_window op oh ow k1 k2 = Some (y, x) <->
   (padding op <= oh * stride op + k1 /\ y = oh * stride op + k1 - padding op /\
    y < h_in op) /\
   (padding op <= ow * stride op + k2 /\ x = ow * stride op + k2 - padding op /\
    x < w_in op)).
Proof.
  intros Hs Hp Hoh How Hk1 Hk2 Hh Hw. unfold fwd_window.
  assert (0 <= oh * stride op) by (apply Z.mul_nonneg_nonneg; lia).
  assert (0 <= ow * stride op) by (apply Z.mul_nonneg_nonneg; lia).
  unfold add64, mul64.
  rewrite (wrap64_small (oh * stride op)), (wrap64_small (ow * stride op)) by lia.
  rewrite !wrap64_small by lia.
  destruct (oh * stride op + k1 <? padding op) eqn:E1; bool_to_prop;
    [split; [discriminate|lia]|].
  unfold sub64. rewrite (wrap64_small (oh * stride op + k1 - padding op)) by lia.
  destruct (h_in op <=? oh * stride op + k1 - padding op) eqn:E2; bool_to_prop;
    [split; [discriminate|lia]|].
  destruct (ow * stride op + k2 <? padding op) eqn:E3; bool_to_prop;
    [split; [discriminate|lia]|].
  rewrite (wrap64_small (ow * stride op + k2 - padding op)) by lia.
  destruct (w_in op <=? ow * stride op + k2 - padding op) eqn:E4; bool_to_prop;
    [split; [discriminate|lia]|].
  split.
  - intros Hv. inversion Hv; subst. lia.
  - intros [[_ [-> _]] [_ [-> _]]]. reflexivity.
Qed.

(** Exact division by the stride inverts the forward coordinate map. *)
Lemma stride_division (s a o : Z) :
  0 < s -> (a mod s = 0 /\ o = a / s <-> a = o * s).
Proof.
  intros Hs. split.
  - intros [Hm ->]. rewrite (Z.div_mod a s) at 1 by lia. rewrite Hm. lia.
  - intros ->. split; [apply Z.mod_mul; lia|]. symmetry. apply Z.div_mul. lia.
Qed.

(** A thread that passes the bound check of a backward kernel decodes
    its flat index into an input position. *)
Lemma decode4_input_position (op : Pool2dOp) (i b c y x : Z) :
  wf_op op -> 0 <= i < numel_in op ->
  decode4 i (batch op) (chan op) (h_in op) (w_in op) = (b, c, y, x) ->
  0 <= y < h_in op /\ 0 <= x < w_in op.
Proof.
  intros [_ [_ [_ [_ [_ [[Hh _] [_ [[Hw _] _]]]]]]]] Hi Hdec.
  unfold numel_in, mul64 in Hi.
  assert (Hw' : w_in op <> 0).
  { intros E. rewrite E, Z.mul_0_r in Hi. unfold wrap64 in Hi.
    rewrite Z.mod_0_l in Hi by lia. lia. }
  assert (Hh' : h_in op <> 0).
  { intros E. rewrite E, Z.mul_0_r in Hi. unfold wrap64 in Hi.
    rewrite (Z.mod_0_l (2 ^ 64)), Z.mul_0_l, Z.mod_0_l in Hi by lia. lia. }
  unfold decode4 in Hdec. inversion Hdec; subst. split; apply Z.mod_pos_bound; lia.
Qed.

(** C2, as stated, fails when a padded coordinate wraps around: under
    [overflow_op] the backward loop of the input position (1, 1) accepts
    the output position (0, 0) at the offset (0, 0), where the forward
    window of that position reads nothing. *)
Lemma backward_recovers_forward_overflow :
  wf_op overflow_op /\ 0 < stride overflow_op /\
  ~ backward_recovers_forward overflow_op.
Proof.
  split; [|split].
  - unfold wf_op, is_size_t, overflow_op; simpl. lia.
  - reflexivity.
  - intros H.
    assert (Hv : bwd_candidate overflow_op 1 1 0 0 = Visited 0 0) by reflexivity.
    apply (H 1 1 0 0 0 0) in Hv; try (unfold overflow_op; simpl; lia).
    discriminate Hv.
Qed.

(** C2 (amended): when the stride is positive and no padded coordinate
    leaves the range of [size_t], a backward iteration accepts an output
    position exactly when the forward window of that position reads the
    input position at the same offset; the backward loop therefore visits
    exactly the output positions whose window covers the input
    position. *)
Theorem pool_backward_visits_covering_outputs (op : Pool2dOp) :
  wf_op op -> 0 < stride op -> no_wrap op ->
  backward_recovers_forward op /\
  (forall y x oh ow,
     0 <= y < h_in op -> 0 <= x < w_in op ->
     (In (oh, ow) (bwd_visited op y x) <->
      0 <= oh < h_out op /\ 0 <= ow < w_out op /\ covers op oh ow y x)) /\
  (forall out_strides i b c y x,
     0 <= i < numel_in op ->
     decode4 i (batch op) (chan op) (h_in op) (w_in op) = (b, c, y, x) ->
     (0 <= y < h_in op /\ 0 <= x < w_in op) /\
     visited_offsets op out_strides i =
       map (fun p => strided4 out_strides b c (fst p) (snd p)) (bwd_visited op y x)).
Proof.
  intros Hwf Hs [Hnh [Hnw [Hoh How]]].
  pose proof Hwf as Hwf0.
  destruct Hwf as [_ [_ [[Hp _] _]]].
  assert (Hrec : backward_recovers_forward op).
  { intros y x k1 k2 oh ow Hy Hx Hk1 Hk2 Ho1 Ho2.
    specialize (Hoh oh k1 Ho1 Hk1). specialize (How ow k2 Ho2 Hk2).
    rewrite bwd_candidate_visited, fwd_window_some by lia.
    pose proof (stride_division (stride op) (y + padding op - k1) oh Hs) as D1.
    pose proof (stride_division (stride op) (x + padding op - k2) ow Hs) as D2.
    assert (0 <= oh * stride op) by (apply Z.mul_nonneg_nonneg; lia).
    assert (0 <= ow * stride op) by (apply Z.mul_nonneg_nonneg; lia).
    split.
    - intros [[A1 [A2 [A3 A4]]] [B1 [B2 [B3 B4]]]].
      assert (y + padding op - k1 = oh * stride op) by (apply D1; auto).
      assert (x + padding op - k2 = ow * stride op) by (apply D2; auto).
      lia.
    - intros [[A1 [A2 A3]] [B1 [B2 B3]]].
      assert (E1 : y + padding op - k1 = oh * stride op) by lia.
      assert (E2 : x + padding op - k2 = ow * stride op) by lia.
      apply D1 in E1. apply D2 in E2. lia. }
  split; [exact Hrec|]. split.
  2:{ intros out_strides i b c y x Hi Hdec. split.
      - exact (decode4_input_position op i b c y x Hwf0 Hi Hdec).
      - unfold visited_offsets. rewrite Hdec. reflexivity. }
  intros y x oh ow Hy Hx. unfold bwd_visited. rewrite in_flat_map. split.
  - intros [[k1 k2] [Hk Hin]]. apply in_offsets in Hk. destruct Hk as [Hk1 Hk2].
    cbn [fst snd] in Hin.
    destruct (bwd_candidate op y x k1 k2) as [| |a b] eqn:E;
      cbn [In] in Hin; try contradiction.
    destruct Hin as [Heq|[]]. inversion Heq; subst a b.
    pose proof E as E'.
    apply bwd_candidate_visited in E'; try lia.
    destruct E' as [[A1 [A2 [A3 A4]]] [B1 [B2 [B3 B4]]]].
    assert (0 <= oh) by (subst oh; apply Z.div_pos; lia).
    assert (0 <= ow) by (subst ow; apply Z.div_pos; lia).
    repeat split; try lia.
    exists k1, k2. repeat split; try lia.
    apply (Hrec y x k1 k2 oh ow); auto; lia.
  - intros [Ho1 [Ho2 [k1 [k2 [Hk1 [Hk2 Hf]]]]]].
    exists (k1, k2). split; [apply in_offsets; lia|]. cbn [fst snd].
    apply (Hrec y x k1 k2 oh ow) in Hf; auto. rewrite Hf. now left.
Qed.

Lemma pool_backward_visits_covering_outputs_witness :
  backward_recovers_forward padded_op /\
  (forall y x oh ow,
     0 <= y < h_in padded_op -> 0 <= x < w_in padded_op ->
     (In (oh, ow) (bwd_visited padded_op y x) <->
      0 <= oh < h_out padded_op /\ 0 <= ow < w_out padded_op /\
      covers padded_op oh ow y x)).
Proof.
  refine ((fun H => conj (proj1 H) (proj1 (proj2 H)))
            (pool_backward_visits_covering_outputs padded_op _ _ _)).
  - unfold wf_op, is_size_t, padded_op; simpl. lia.
  - reflexivity.
  - unfold no_wrap, padded_op; simpl. repeat split; intros; lia.
Defined.

(* ================================================================= *)
(** ** Loops as sums over lists *)

Lemma fold_left_select {A B C : Type} (step : A -> C -> A) (body : A -> B -> A)
    (sel : C -> option B) (l : list C) (init : A) :
  (forall acc k, step acc k = match sel k with
                              | None => acc
                              | Some p => body acc p
                              end) ->
  fold_left step l init =
  fold_left body
    (flat_map (fun k => match sel k with Some p => [p] | None => [] end) l) init.
Proof.
  intros Hstep. revert init. induction l as [|k l IH]; intros init; simpl;
    [reflexivity|].
  rewrite fold_left_app, IH, Hstep. destruct (sel k); reflexivity.
Qed.

Lemma fsum_map {T : Type} {S : Scalar T} {B : Type} (h : B -> T) (l : list B) (init : T) :
  fold_left (fun acc p => fadd acc (h p)) l init = fsum init (map h l).
Proof.
  unfold fsum. revert init. induction l as [|p l IH]; intros init; simpl;
    [reflexivity|apply IH].
Qed.

Lemma length_offsets (n : Z) : 0 <= n -> Z.of_nat (length (offsets n)) = n * n.
Proof.
  intros Hn. unfold offsets.
  assert (Hl : forall l1 l2 : list Z,
             length (flat_map (fun k1 => map (fun k2 => (k1, k2)) l2) l1) =
             (length l1 * length l2)%nat).
  { intros l1 l2. induction l1 as [|a l1 IH]; simpl; [reflexivity|].
    rewrite length_app, length_map, IH. reflexivity. }
  rewrite Hl. unfold zrange. rewrite length_map, length_seq. lia.
Qed.

Lemma length_select_le {B C : Type} (sel : C -> option B) (l : list C) :
  (length (flat_map (fun k => match sel k with Some p => [p] | None => [] end) l)
   <= length l)%nat.
Proof.
  induction l as [|k l IH]; simpl; [lia|].
  rewrite length_app. destruct (sel k); simpl; lia.
Qed.

Lemma length_select_all {B C : Type} (sel : C -> option B) (l : list C) :
  (forall k, In k l -> sel k <> None) ->
  length (flat_map (fun k => match sel k with Some p => [p] | None => [] end) l)
  = length l.
Proof.
  induction l as [|k l IH]; intros H; simpl; [reflexivity|].
  rewrite length_app, IH by (intros k' Hk'; apply H; now right).
  destruct (sel k) eqn:E; [reflexivity|]. exfalso. apply (H k); [now left|exact E].
Qed.

Lemma length_select_some_none {B C : Type} (sel : C -> option B) (l : list C) (k : C) :
  In k l -> sel k = None ->
  (length (flat_map (fun k => match sel k with Some p => [p] | None => [] end) l)
   < length l)%nat.
Proof.
  induction l as [|a l IH]; intros Hin Hk; simpl; [contradiction|].
  rewrite length_app. destruct Hin as [->|Hin].
  - rewrite Hk. simpl. pose proof (length_select_le sel l). lia.
  - specialize (IH Hin Hk). destruct (sel a); simpl; lia.
Qed.

(** A sum of [n] ones is the conversion of [n] while the type counts
    exactly. *)
Lemma fsum_ones {T : Type} {S : Scalar T} (E : Z) (l : list T) :
  counts_exactly E -> (forall v, In v l -> v = fone) ->
  Z.of_nat (length l) <= E ->
  fsum fzero l = of_size_t (Z.of_nat (length l)).
Proof.
  intros HE. rewrite <- (cnt_zero E HE).
  assert (G : forall (l : list T) (n : Z), 0 <= n ->
            (forall v, In v l -> v = fone) ->
            n + Z.of_nat (length l) <= E ->
            fsum (of_size_t n) l = of_size_t (n + Z.of_nat (length l))).
  { clear l. induction l as [|v l IH]; intros n Hn Hall Hle; simpl.
    - f_equal. lia.
    - unfold fsum in *. simpl. rewrite (Hall v) by now left.
      rewrite (cnt_succ E HE) by (simpl in Hle; lia).
      rewrite IH; [f_equal; simpl length; lia|lia| |simpl in Hle; lia].
      intros v' Hv'. apply Hall. now right. }
  intros Hall Hle. rewrite (G l 0); [reflexivity|lia|exact Hall|lia].
Qed.

(* ================================================================= *)
(** ** Counting in the IEEE formats *)

Lemma sf_eqb_eq (a b : spec_float) : sf_eqb a b = true -> a = b.
Proof.
  destruct a as [s|s| |s m e], b as [s'|s'| |s' m' e']; simpl; try discriminate.
  - intros H. apply Bool.eqb_prop in H. now subst.
  - intros H. apply Bool.eqb_prop in H. now subst.
  - reflexivity.
  - intros H. apply andb_true_iff in H. destruct H as [H He].
    apply andb_true_iff in H. destruct H as [Hs Hm].
    apply Bool.eqb_prop in Hs. apply Pos.eqb_eq in Hm. apply Z.eqb_eq in He.
    now subst.
Qed.

Lemma forallb_zrange (f : Z -> bool) (E : Z) :
  forallb f (zrange E) = true -> forall n, 0 <= n < E -> f n = true.
Proof.
  intros H n Hn. rewrite forallb_forall in H. apply H. now apply in_zrange.
Qed.

Lemma ieee_counts_exactly_check (prec emax E : Z) :
  forallb (fun n => sf_eqb (SFadd prec emax (SFof_size_t prec emax n) (SFone prec emax))
                           (SFof_size_t prec emax (n + 1))) (zrange E) = true ->
  forallb (fun n => (n =? 0) ||
                    sf_eqb (SFdiv prec emax (SFof_size_t prec emax n)
                                            (SFof_size_t prec emax n))
                           (SFone prec emax)) (zrange (E + 1)) = true ->
  forallb (fun n => forallb (fun m => (n <=? m) ||
                    SFltb (SFdiv prec emax (SFof_size_t prec emax m)
                                           (SFof_size_t prec emax n))
                          (SFone prec emax)) (zrange (E + 1))) (zrange (E + 1)) = true ->
  @counts_exactly _ (ieee prec emax) E.
Proof.
  intros H1 H2 H3. constructor; cbn [fadd fdiv fltb fone fzero of_size_t ieee].
  - reflexivity.
  - intros n Hn. apply sf_eqb_eq. now apply (forallb_zrange _ E H1).
  - intros n Hn. apply sf_eqb_eq.
    pose proof (forallb_zrange _ (E + 1) H2 n ltac:(lia)) as H.
    apply orb_true_iff in H. destruct H as [H|H]; [bool_to_prop; lia|exact H].
  - intros m n Hm Hn.
    pose proof (forallb_zrange _ (E + 1) H3 n ltac:(lia)) as H. cbv beta in H.
    pose proof (forallb_zrange _ (E + 1) H m ltac:(lia)) as H'. cbv beta in H'.
    apply orb_true_iff in H'. destruct H' as [H'|H']; [bool_to_prop; lia|exact H'].
Qed.

(** Both formats count exactly up to 100, which covers kernels up to
    10 x 10. *)
Lemma binary32_counts_exactly : @counts_exactly _ binary32 100.
Proof. apply ieee_counts_exactly_check; vm_compute; reflexivity. Qed.

Lemma binary64_counts_exactly : @counts_exactly _ binary64 100.
Proof. apply ieee_counts_exactly_check; vm_compute; reflexivity. Qed.

(** In binary32 counting stops at 2^24: one more 1.0 is rounded away. *)
Lemma binary32_counting_stops :
  SFadd 24 128 (SFof_size_t 24 128 (2 ^ 24)) (SFone 24 128) = SFof_size_t 24 128 (2 ^ 24).
Proof. vm_compute. reflexivity. Qed.

(* ================================================================= *)
(** ** Average pooling, forward *)

Lemma fwd_window_in_bounds (op : Pool2dOp) (oh ow k1 k2 y x : Z) :
  fwd_window op oh ow k1 k2 = Some (y, x) ->
  0 <= y < h_in op /\ 0 <= x < w_in op.
Proof.
  unfold fwd_window.
  destruct (_ <? padding op); [discriminate|].
  destruct (h_in op <=? _) eqn:E1; [discriminate|].
  destruct (_ <? padding op); [discriminate|].
  destruct (w_in op <=? _) eqn:E2; [discriminate|].
  intros H. inversion H; subst. bool_to_prop.
  pose proof (wrap64_range (add64 (mul64 oh (stride op)) k1 - padding op)).
  pose proof (wrap64_range (add64 (mul64 ow (stride op)) k2 - padding op)).
  unfold sub64 in *. lia.
Qed.

Lemma in_fwd_inputs (op : Pool2dOp) (oh ow y x : Z) :
  In (y, x) (fwd_inputs op oh ow) <-> covers op oh ow y x.
Proof.
  unfold fwd_inputs, covers. rewrite in_flat_map. split.
  - intros [[k1 k2] [Hk Hin]]. apply in_offsets in Hk. cbn [fst snd] in Hin.
    destruct (fwd_window op oh ow k1 k2) as [p|] eqn:E; cbn [In] in Hin;
      [|contradiction].
    destruct Hin as [->|[]]. exists k1, k2. tauto.
  - intros [k1 [k2 [Hk1 [Hk2 Hf]]]]. exists (k1, k2).
    split; [apply in_offsets; lia|]. cbn [fst snd]. rewrite Hf. now left.
Qed.

(** The loop of a forward kernel as a fold over the inputs it reads. *)
Lemma forward_loop_inputs {T : Type} (op : Pool2dOp) (inp_strides : list Z)
    (inp : buf T) (b c oh ow : Z) (combine : T -> T -> T) (init : T) :
  window_loop (kernel op)
    (fun tmp k1 k2 =>
       match fwd_window op oh ow k1 k2 with
       | None => tmp
       | Some (y, x) => combine tmp (inp (strided4 inp_strides b c y x))
       end) init =
  fold_left (fun tmp p => combine tmp (inp (strided4 inp_strides b c (fst p) (snd p))))
    (fwd_inputs op oh ow) init.
Proof.
  rewrite window_loop_offsets. unfold fwd_inputs.
  apply (fold_left_select _ _ (fun k => fwd_window op oh ow (fst k) (snd k))).
  intros acc k. destruct (fwd_window op oh ow (fst k) (snd k)) as [[y x]|]; reflexivity.
Qed.

(** C3, as stated, fails for a kernel of size zero: the window is empty,
    so it is fully in bounds, and on an all-ones input the result is
    0.0 / 0.0, which is NaN and not 1.0. *)
Lemma avg_pool2d_forward_zero_kernel :
  let result :=
    @avg_pool2d_forward _ binary32 zero_kernel_op [1; 1; 1; 1] [4; 4; 2; 1]
      (fun _ => SFone 24 128) (fun _ => S754_zero false) 0 0 in
  0 < numel_out zero_kernel_op /\
  fully_in_bounds zero_kernel_op 0 0 /\
  result = S754_nan /\ result <> SFone 24 128.
Proof.
  cbv zeta. repeat split.
  - intros k1 k2 Hk1. unfold zero_kernel_op in Hk1; simpl in Hk1. lia.
  - vm_compute. discriminate.
Qed.

(** C3 (amended): the result of avg-pool forward at an output position
    is the sum, in loop order, of the input values its window reads, all
    of them inside the input, divided by the conversion of kernel*kernel,
    however many offsets were skipped.  On an all-ones input, for a kernel
    of size at least one and while the scalar type counts exactly up to
    kernel*kernel, a window fully in bounds yields exactly 1.0 and a
    window with a skipped offset yields a value less than 1.0. *)
Theorem avg_pool2d_forward_window_mean {T : Type} {S : Scalar T} (op : Pool2dOp)
    (inp_strides out_strides : list Z) (inp out : buf T) (i b c oh ow : Z) :
  0 <= i < numel_out op ->
  decode4 i (batch op) (chan op) (h_out op) (w_out op) = (b, c, oh, ow) ->
  let result := avg_pool2d_forward op inp_strides out_strides inp out i i in
  result =
    fdiv (fsum fzero (map (fun p => inp (strided4 inp_strides b c (fst p) (snd p)))
                          (fwd_inputs op oh ow)))
         (of_size_t (mul64 (kernel op) (kernel op))) /\
  (forall y x, In (y, x) (fwd_inputs op oh ow) -> 0 <= y < h_in op /\ 0 <= x < w_in op) /\
  (forall E, counts_exactly E ->
     0 < kernel op -> kernel op * kernel op <= E -> kernel op * kernel op < 2 ^ 64 ->
     (forall j, inp j = fone) ->
     (fully_in_bounds op oh ow -> result = fone) /\
     (extends_outside op oh ow -> fltb result fone = true)).
Proof.
  intros Hi Hdec result.
  assert (Hres : result =
    fdiv (fsum fzero (map (fun p => inp (strided4 inp_strides b c (fst p) (snd p)))
                          (fwd_inputs op oh ow)))
         (of_size_t (mul64 (kernel op) (kernel op)))).
  { subst result. unfold avg_pool2d_forward.
    destruct (numel_out op <=? i) eqn:E; bool_to_prop; [lia|].
    rewrite Hdec. unfold upd. rewrite Z.eqb_refl.
    rewrite forward_loop_inputs, fsum_map. reflexivity. }
  split; [exact Hres|]. split.
  - intros y x Hin. apply in_fwd_inputs in Hin.
    destruct Hin as [k1 [k2 [_ [_ Hf]]]]. now apply fwd_window_in_bounds in Hf.
  - intros E HE Hk HkE Hk64 Hones.
    assert (Hoff : Z.of_nat (length (offsets (kernel op))) = kernel op * kernel op)
      by (apply length_offsets; lia).
    assert (Hsum : fsum fzero (map (fun p => inp (strided4 inp_strides b c (fst p) (snd p)))
                                   (fwd_inputs op oh ow)) =
                   of_size_t (Z.of_nat (length (fwd_inputs op oh ow)))).
    { rewrite (fsum_ones E).
      - now rewrite length_map.
      - exact HE.
      - intros v Hv. apply in_map_iff in Hv. destruct Hv as [p [<- _]]. apply Hones.
      - rewrite length_map. unfold fwd_inputs.
        pose proof (length_select_le (fun k => fwd_window op oh ow (fst k) (snd k))
                      (offsets (kernel op))). lia. }
    rewrite Hres, Hsum. unfold mul64. rewrite (wrap64_small (kernel op * kernel op)) by lia.
    split.
    + intros Hfull.
      assert (Hlen : length (fwd_inputs op oh ow) = length (offsets (kernel op))).
      { unfold fwd_inputs. apply length_select_all. intros [k1 k2] Hk12.
        apply in_offsets in Hk12. apply Hfull; tauto. }
      rewrite Hlen, Hoff. apply (cnt_div_self E HE). lia.
    + intros [k1 [k2 [Hk1 [Hk2 Hnone]]]].
      assert (Hlen : (length (fwd_inputs op oh ow) < length (offsets (kernel op)))%nat).
      { unfold fwd_inputs.
        apply (length_select_some_none _ _ (k1, k2)); [apply in_offsets; lia|exact Hnone]. }
      apply (cnt_div_less E HE); lia.
Qed.

Lemma avg_pool2d_forward_window_mean_witness :
  let inp : buf spec_float := fun _ => SFone 24 128 in
  let out : buf spec_float := fun _ => S754_zero false in
  @avg_pool2d_forward _ binary32 padded_op [16; 16; 4; 1] [9; 9; 3; 1] inp out 4 4
    = SFone 24 128 /\
  SFltb (@avg_pool2d_forward _ binary32 padded_op [16; 16; 4; 1] [9; 9; 3; 1] inp out 0 0)
        (SFone 24 128) = true.
Proof.
  intros inp out.
  assert (Hk : 0 < kernel padded_op) by reflexivity.
  assert (HkE : kernel padded_op * kernel padded_op <= 100) by (simpl; lia).
  assert (Hk64 : kernel padded_op * kernel padded_op < 2 ^ 64) by (simpl; lia).
  assert (Hones : forall j, inp j = @fone _ binary32) by reflexivity.
  assert (Hi4 : 0 <= 4 < numel_out padded_op) by (vm_compute; split; congruence).
  assert (Hi0 : 0 <= 0 < numel_out padded_op) by (vm_compute; split; congruence).
  split.
  - refine (proj1 (proj2 (proj2 (@avg_pool2d_forward_window_mean _ binary32 padded_op
                [16; 16; 4; 1] [9; 9; 3; 1] inp out 4 0 0 1 1 Hi4 eq_refl))
              100 binary32_counts_exactly Hk HkE Hk64 Hones) _).
    intros k1 k2 Hk1 Hk2. unfold padded_op in Hk1, Hk2; simpl in Hk1, Hk2.
    assert (C1 : k1 = 0 \/ k1 = 1) by lia. assert (C2 : k2 = 0 \/ k2 = 1) by lia.
    destruct C1 as [-> | ->], C2 as [-> | ->]; vm_compute; discriminate.
  - refine (proj2 (proj2 (proj2 (@avg_pool2d_forward_window_mean _ binary32 padded_op
                [16; 16; 4; 1] [9; 9; 3; 1] inp out 0 0 0 0 0 Hi0 eq_refl))
              100 binary32_counts_exactly Hk HkE Hk64 Hones) _).
    exists 0, 0. repeat split; try (unfold padded_op; simpl; lia).
Defined.

(* ================================================================= *)
(** ** Conversion of a positive integer to a float *)

(** Rounding to nearest never takes a positive integer to zero: the
    shifts of [binary_round_aux] keep at least one digit. *)

Lemma digits2_pos_bounds (p : positive) :
  2 ^ (Zpos (digits2_pos p) - 1) <= Zpos p < 2 ^ Zpos (digits2_pos p).
Proof.
  induction p as [p IH|p IH|]; cbn [digits2_pos].
  - rewrite Pos2Z.inj_succ.
    replace (Z.succ (Zpos (digits2_pos p)) - 1) with (Z.succ (Zpos (digits2_pos p) - 1)) by lia.
    rewrite !Z.pow_succ_r by lia. lia.
  - rewrite Pos2Z.inj_succ.
    replace (Z.succ (Zpos (digits2_pos p)) - 1) with (Z.succ (Zpos (digits2_pos p) - 1)) by lia.
    rewrite !Z.pow_succ_r by lia. lia.
  - simpl. lia.
Qed.

Lemma Zdigits2_bounds (m : Z) :
  0 < m -> 2 ^ (Zdigits2 m - 1) <= m < 2 ^ Zdigits2 m.
Proof. destruct m as [|p|p]; try lia. intros _. apply digits2_pos_bounds. Qed.

Lemma Zdigits2_lower (m k : Z) : 0 <= k -> 2 ^ k <= m -> k < Zdigits2 m.
Proof.
  intros Hk Hm. assert (0 < m) by (pose proof (Z.pow_pos_nonneg 2 k); lia).
  pose proof (Zdigits2_bounds m H) as [_ Hu].
  apply (Z.pow_lt_mono_r_iff 2); try lia.
  destruct m; try lia. simpl. lia.
Qed.

Lemma shr_1_m (mrs : shr_record) :
  0 <= shr_m mrs -> shr_m (shr_1 mrs) = shr_m mrs / 2.
Proof.
  destruct mrs as [m r s]. cbn [shr_m]. intros Hm. unfold shr_1.
  destruct m as [|[p|p|]|p]; cbn [shr_m]; try reflexivity; try lia.
  - rewrite Pos2Z.inj_xI. apply Z.div_unique with 1; lia.
  - rewrite Pos2Z.inj_xO. apply Z.div_unique with 0; lia.
Qed.

Lemma iter_shr_1_m (n : positive) (mrs : shr_record) :
  0 <= shr_m mrs -> shr_m (iter_pos shr_1 n mrs) = shr_m mrs / 2 ^ Zpos n.
Proof.
  revert mrs. induction n as [n IH|n IH|]; intros mrs Hm; cbn [iter_pos].
  - assert (H1 : 0 <= shr_m (shr_1 mrs)) by (rewrite shr_1_m by lia; apply Z.div_pos; lia).
    assert (H2 : 0 <= shr_m (iter_pos shr_1 n (shr_1 mrs)))
      by (rewrite IH by lia; apply Z.div_pos; lia).
    rewrite IH, IH, shr_1_m by lia.
    assert (E : 2 ^ Zpos n~1 = 2 * (2 ^ Zpos n * 2 ^ Zpos n)).
    { replace (Zpos n~1) with (1 + (Zpos n + Zpos n)) by lia.
      rewrite !Z.pow_add_r by lia. reflexivity. }
    rewrite E, !Z.div_div by lia. reflexivity.
  - assert (H2 : 0 <= shr_m (iter_pos shr_1 n mrs))
      by (rewrite IH by lia; apply Z.div_pos; lia).
    rewrite IH, IH by lia.
    assert (E : 2 ^ Zpos n~0 = 2 ^ Zpos n * 2 ^ Zpos n).
    { replace (Zpos n~0) with (Zpos n + Zpos n) by lia.
      rewrite !Z.pow_add_r by lia. reflexivity. }
    rewrite E, Z.div_div by lia. reflexivity.
  - rewrite shr_1_m by lia. reflexivity.
Qed.

Section Positive.
Variables prec emax : Z.
Hypothesis prec_pos : 0 < prec.

Lemma shr_fexp_positive (m e : Z) (l : location) :
  0 < m -> emin prec emax < e + Zdigits2 m ->
  0 < shr_m (fst (shr_fexp prec emax m e l)) /\
  e + Zdigits2 m <= snd (shr_fexp prec emax m e l)
                    + Zdigits2 (shr_m (fst (shr_fexp prec emax m e l))).
Proof.
  intros Hm He. unfold shr_fexp, shr.
  assert (Hrec : shr_m (shr_record_of_loc m l) = m)
    by (destruct l as [|[| |]]; reflexivity).
  destruct (fexp prec emax (Zdigits2 m + e) - e) as [|n|n] eqn:En;
    cbn [fst snd]; rewrite ?Hrec; try lia.
  pose proof (Zdigits2_bounds m Hm) as [Hlo Hhi].
  assert (Hn : Zpos n <= Zdigits2 m - 1) by (unfold fexp in En; lia).
  rewrite iter_shr_1_m by lia. rewrite Hrec.
  assert (Hq : 2 ^ (Zdigits2 m - 1 - Zpos n) <= m / 2 ^ Zpos n).
  { apply Z.div_le_lower_bound; [lia|].
    rewrite <- Z.pow_add_r by lia.
    replace (Zpos n + (Zdigits2 m - 1 - Zpos n)) with (Zdigits2 m - 1) by lia. lia. }
  assert (0 < 2 ^ (Zdigits2 m - 1 - Zpos n)) by (apply Z.pow_pos_nonneg; lia).
  split; [lia|].
  assert (Hk : 0 <= Zdigits2 m - 1 - Zpos n) by lia.
  pose proof (Zdigits2_lower _ _ Hk Hq). lia.
Qed.

Lemma round_nearest_even_ge (m : Z) (l : location) : m <= round_nearest_even m l.
Proof. destruct l as [|[| |]]; simpl; try lia. destruct (Z.even m); lia. Qed.

Lemma Zdigits2_mono (a b : Z) : 0 < a -> a <= b -> Zdigits2 a <= Zdigits2 b.
Proof.
  intros Ha Hab. pose proof (Zdigits2_bounds a Ha) as [Hlo _].
  assert (0 < Zdigits2 a) by (destruct a; simpl; lia).
  pose proof (Zdigits2_lower b (Zdigits2 a - 1) ltac:(lia) ltac:(lia)). lia.
Qed.

Lemma binary_round_aux_positive (s : bool) (m e : Z) (l : location) :
  0 < m -> emin prec emax < e + Zdigits2 m ->
  (exists m' e', binary_round_aux prec emax s m e l = S754_finite s m' e') \/
  binary_round_aux prec emax s m e l = S754_infinity s.
Proof.
  intros Hm He. unfold binary_round_aux.
  pose proof (shr_fexp_positive m e l Hm He) as [P1 P2].
  destruct (shr_fexp prec emax m e l) as [mrs' e']. cbn [fst snd] in P1, P2.
  set (m1 := round_nearest_even (shr_m mrs') (loc_of_shr_record mrs')).
  assert (Hm1 : shr_m mrs' <= m1) by apply round_nearest_even_ge.
  assert (Hd : Zdigits2 (shr_m mrs') <= Zdigits2 m1) by (apply Zdigits2_mono; lia).
  pose proof (shr_fexp_positive m1 e' loc_Exact ltac:(lia) ltac:(lia)) as [Q1 _].
  destruct (shr_fexp prec emax m1 e' loc_Exact) as [mrs'' e'']. cbn [fst] in Q1.
  destruct (shr_m mrs'') as [|p|p]; try lia.
  destruct (e'' <=? emax - prec); [left; eauto|now right].
Qed.

Hypothesis emin_neg : emin prec emax < 1.

Lemma iter_xO_pow (p d : positive) : Zpos (Pos.iter xO p d) = Zpos p * 2 ^ Zpos d.
Proof.
  induction d as [|d IH] using Pos.peano_ind.
  - simpl. lia.
  - rewrite Pos.iter_succ, Pos2Z.inj_xO, IH, Pos2Z.inj_succ, Z.pow_succ_r by lia. ring.
Qed.

Lemma SFof_size_t_positive (n : Z) :
  0 < n ->
  (exists m e, binary_normalize prec emax n 0 false = S754_finite false m e) \/
  binary_normalize prec emax n 0 false = S754_infinity false.
Proof.
  intros Hn. destruct n as [|p|p]; try lia. unfold binary_normalize, binary_round.
  destruct (shl_align p 0 (fexp prec emax (Zpos (digits2_pos p) + 0))) as [mz ez] eqn:E.
  apply binary_round_aux_positive; [lia|].
  unfold shl_align in E.
  destruct (fexp prec emax (Zpos (digits2_pos p) + 0) - 0) as [|d|d] eqn:Ed;
    inversion E; subst; cbn [Zdigits2]; try lia.
  assert (H : Zpos d < Zdigits2 (Zpos (Pos.iter xO p d))).
  { apply Zdigits2_lower; [lia|]. rewrite iter_xO_pow.
    assert (0 < 2 ^ Zpos d) by (apply Z.pow_pos_nonneg; lia). nia. }
  cbn [Zdigits2] in H. rewrite Z.add_0_r in Ed. lia.
Qed.

(** 0.0 divided by the conversion of a positive integer is 0.0. *)
Lemma SFdiv_zero_of_size_t (n : Z) :
  0 < n -> SFdiv prec emax (S754_zero false) (SFof_size_t prec emax n) = S754_zero false.
Proof.
  intros Hn. unfold SFof_size_t.
  destruct (SFof_size_t_positive n Hn) as [[m [e ->]]| ->]; reflexivity.
Qed.
End Positive.

(* ================================================================= *)
(** ** Windows that read nothing *)

Lemma select_none_nil {B C : Type} (sel : C -> option B) (l : list C) :
  (forall k, In k l -> sel k = None) ->
  flat_map (fun k => match sel k with Some p => [p] | None => [] end) l = [].
Proof.
  induction l as [|k l IH]; intros H; simpl; [reflexivity|].
  rewrite (H k) by now left. apply IH. intros k' Hk'. apply H. now right.
Qed.

Lemma all_skipped_no_inputs (op : Pool2dOp) (oh ow : Z) :
  all_skipped op oh ow -> fwd_inputs op oh ow = [].
Proof.
  intros H. unfold fwd_inputs. apply select_none_nil. intros [k1 k2] Hk.
  apply in_offsets in Hk. apply H; tauto.
Qed.

(** C10, as stated, fails for a kernel of size zero: every window offset
    is skipped, there being none, and avg-pool stores 0.0 / 0.0, which is
    NaN and not 0.0. *)
Lemma avg_pool2d_forward_all_skipped_nan :
  0 < numel_out zero_kernel_op /\
  all_skipped zero_kernel_op 0 0 /\
  @avg_pool2d_forward _ binary32 zero_kernel_op [1; 1; 1; 1] [4; 4; 2; 1]
    (fun _ => SFone 24 128) (fun _ => S754_zero false) 0 0 = S754_nan /\
  @avg_pool2d_forward _ binary32 zero_kernel_op [1; 1; 1; 1] [4; 4; 2; 1]
    (fun _ => SFone 24 128) (fun _ => S754_zero false) 0 0 <> S754_zero false.
Proof.
  split; [reflexivity|]. split; [|split].
  - intros k1 k2 Hk1. unfold zero_kernel_op in Hk1; simpl in Hk1. lia.
  - vm_compute. reflexivity.
  - vm_compute. discriminate.
Qed.

(** C10 (amended): at an output position all of whose window offsets are
    skipped, in either floating-point format, max-pool stores negative
    infinity and min-pool positive infinity, and avg-pool stores 0.0
    provided kernel*kernel is not zero in [size_t], that is, for a kernel
    of size at least one. *)
Theorem pool_forward_all_skipped (prec emax : Z) (op : Pool2dOp)
    (inp_strides out_strides : list Z) (inp out : buf spec_float) (i b c oh ow : Z) :
  0 < prec -> emin prec emax < 1 ->
  0 <= i < numel_out op ->
  decode4 i (batch op) (chan op) (h_out op) (w_out op) = (b, c, oh, ow) ->
  all_skipped op oh ow ->
  (mul64 (kernel op) (kernel op) <> 0 ->
   @avg_pool2d_forward _ (ieee prec emax) op inp_strides out_strides inp out i i
     = S754_zero false) /\
  @max_pool2d_forward _ (ieee prec emax) op inp_strides out_strides inp out i i
    = S754_infinity true /\
  @min_pool2d_forward _ (ieee prec emax) op inp_strides out_strides inp out i i
    = S754_infinity false.
Proof.
  intros Hprec Hemin Hi Hdec Hskip.
  pose proof (all_skipped_no_inputs op oh ow Hskip) as Hnil.
  unfold avg_pool2d_forward, max_pool2d_forward, min_pool2d_forward.
  destruct (numel_out op <=? i) eqn:E; bool_to_prop; [lia|].
  rewrite Hdec. unfold upd. rewrite Z.eqb_refl.
  rewrite !forward_loop_inputs, Hnil. cbn [fold_left].
  repeat split.
  intros Hk. cbn [fdiv fzero of_size_t ieee].
  apply SFdiv_zero_of_size_t; try assumption.
  pose proof (wrap64_range (kernel op * kernel op)). unfold mul64 in *. lia.
Qed.

Lemma pool_forward_all_skipped_witness :
  let inp : buf spec_float := fun _ => SFone 24 128 in
  let out : buf spec_float := fun _ => S754_nan in
  @avg_pool2d_forward _ binary32 border_op [1; 1; 1; 1] [25; 25; 5; 1] inp out 0 0
    = S754_zero false /\
  @max_pool2d_forward _ binary32 border_op [1; 1; 1; 1] [25; 25; 5; 1] inp out 0 0
    = S754_infinity true /\
  @min_pool2d_forward _ binary32 border_op [1; 1; 1; 1] [25; 25; 5; 1] inp out 0 0
    = S754_infinity false.
Proof.
  intros inp out.
  assert (Hi : 0 <= 0 < numel_out border_op) by (vm_compute; split; congruence).
  assert (Hskip : all_skipped border_op 0 0).
  { intros k1 k2 Hk1 Hk2. unfold border_op in Hk1, Hk2; simpl in Hk1, Hk2.
    assert (k1 = 0) as -> by lia. assert (k2 = 0) as -> by lia. reflexivity. }
  destruct (pool_forward_all_skipped 24 128 border_op [1; 1; 1; 1] [25; 25; 5; 1]
              inp out 0 0 0 0 0 eq_refl eq_refl Hi eq_refl Hskip) as [Ha [Hmax Hmin]].
  split; [|split; assumption].
  apply Ha. vm_compute. discriminate.
Defined.

(* ================================================================= *)
(** ** Pooling, backward: threads *)

Lemma bwd_candidate_defined (op : Pool2dOp) (y x k1 k2 : Z) :
  stride op <> 0 -> bwd_candidate op y x k1 k2 <> Undefined.
Proof.
  intros Hs. unfold bwd_candidate.
  destruct (stride op =? 0) eqn:E0; bool_to_prop; [contradiction|].
  repeat match goal with
         | |- context [if ?b then _ else _] => destruct b
         end; discriminate.
Qed.

(** A window loop whose body is defined at every offset. *)
Lemma window_loop_opt_select {A B : Type} (n : Z) (body : A -> Z -> Z -> option A)
    (step : A -> B -> A) (sel : Z * Z -> option B) (init : A) :
  (forall acc k, body acc (fst k) (snd k) =
                 Some (match sel k with None => acc | Some p => step acc p end)) ->
  window_loop_opt n body init =
  Some (fold_left step
          (flat_map (fun k => match sel k with Some p => [p] | None => [] end)
             (offsets n)) init).
Proof.
  intros Hbody. unfold window_loop_opt. rewrite window_loop_offsets.
  rewrite <- (fold_left_select
                (fun acc k => match sel k with None => acc | Some p => step acc p end)
                step sel) by reflexivity.
  generalize (offsets n). intros l. revert init.
  induction l as [|k l IH]; intros init; cbn [fold_left]; [reflexivity|].
  rewrite Hbody. apply IH.
Qed.

Lemma bwd_visited_select (op : Pool2dOp) (y x : Z) :
  bwd_visited op y x =
  flat_map (fun k => match (match bwd_candidate op y x (fst k) (snd k) with
                            | Visited oh ow => Some (oh, ow)
                            | _ => None
                            end) with
                     | Some p => [p]
                     | None => []
                     end) (offsets (kernel op)).
Proof.
  unfold bwd_visited. apply flat_map_ext. intros k.
  destruct (bwd_candidate op y x (fst k) (snd k)); reflexivity.
Qed.

Lemma fsum_filter_map {T : Type} {S : Scalar T} {B : Type} (keep : B -> bool)
    (h : B -> T) (l : list B) (init : T) :
  fold_left (fun acc p => if keep p then fadd acc (h p) else acc) l init =
  fsum init (map h (filter keep l)).
Proof.
  unfold fsum. revert init. induction l as [|p l IH]; intros init; cbn [fold_left filter];
    [reflexivity|].
  rewrite IH. destruct (keep p); reflexivity.
Qed.

Section BackwardThreads.
Context {T : Type} {S : Scalar T}.
Variable op : Pool2dOp.
Variables inp_strides out_strides : list Z.
Hypothesis stride_nonzero : stride op <> 0.

Lemma avg_backward_tmp_visited (m : pool_mem) (i : Z) :
  avg_backward_tmp op out_strides m i =
  Some (fsum fzero (map (grad_out m) (visited_offsets op out_strides i))).
Proof.
  unfold avg_backward_tmp, visited_offsets.
  destruct (decode4 i (batch op) (chan op) (h_in op) (w_in op)) as [[[b c] y] x].
  rewrite (window_loop_opt_select _ _
             (fun tmp p => fadd tmp (grad_out m (strided4 out_strides b c (fst p) (snd p))))
             (fun k => match bwd_candidate op y x (fst k) (snd k) with
                       | Visited oh ow => Some (oh, ow)
                       | _ => None
                       end)).
  - rewrite <- bwd_visited_select, map_map.
    rewrite (fsum_map (fun p => grad_out m (strided4 out_strides b c (fst p) (snd p)))).
    reflexivity.
  - intros acc k. pose proof (bwd_candidate_defined op y x (fst k) (snd k) stride_nonzero).
    destruct (bwd_candidate op y x (fst k) (snd k)); [contradiction|reflexivity|reflexivity].
Qed.

Lemma select_backward_tmp_visited (m : pool_mem) (i : Z) :
  select_backward_tmp op out_strides m i = Some (select_contribution op out_strides m i).
Proof.
  unfold select_backward_tmp, select_contribution, selected_offsets, visited_offsets.
  destruct (decode4 i (batch op) (chan op) (h_in op) (w_in op)) as [[[b c] y] x].
  rewrite (window_loop_opt_select _ _
             (fun tmp p =>
                if feqb (out m (strided4 out_strides b c (fst p) (snd p))) (inp m i)
                then fadd tmp (grad_out m (strided4 out_strides b c (fst p) (snd p)))
                else tmp)
             (fun k => match bwd_candidate op y x (fst k) (snd k) with
                       | Visited oh ow => Some (oh, ow)
                       | _ => None
                       end)).
  - rewrite <- bwd_visited_select.
    rewrite <- (fsum_filter_map (fun o => feqb (out m o) (inp m i)) (grad_out m)).
    f_equal. generalize (bwd_visited op y x) (@fzero T S). intros l.
    induction l as [|p l IH]; intros init; cbn [map fold_left]; [reflexivity|apply IH].
  - intros acc k. pose proof (bwd_candidate_defined op y x (fst k) (snd k) stride_nonzero).
    destruct (bwd_candidate op y x (fst k) (snd k)); [contradiction|reflexivity|].
    cbn [fst snd].
    destruct (feqb (out m (strided4 out_strides b c oh ow)) (inp m i)); reflexivity.
Qed.

Lemma avg_pool2d_backward_thread (m : pool_mem) (i : Z) :
  avg_pool2d_backward op inp_strides out_strides m i =
  Some (accumulate_thread (numel_in op) (avg_contribution op out_strides) m i).
Proof.
  unfold avg_pool2d_backward, accumulate_thread, avg_contribution.
  destruct (numel_in op <=? i); [reflexivity|].
  rewrite avg_backward_tmp_visited. reflexivity.
Qed.

Lemma max_pool2d_backward_thread (m : pool_mem) (i : Z) :
  max_pool2d_backward op inp_strides out_strides m i =
  Some (accumulate_thread (numel_in op) (select_contribution op out_strides) m i).
Proof.
  unfold max_pool2d_backward, accumulate_thread.
  destruct (numel_in op <=? i); [reflexivity|].
  rewrite select_backward_tmp_visited. reflexivity.
Qed.

Lemma min_pool2d_backward_thread (m : pool_mem) (i : Z) :
  min_pool2d_backward op inp_strides out_strides m i =
  Some (accumulate_thread (numel_in op) (select_contribution op out_strides) m i).
Proof.
  unfold min_pool2d_backward, accumulate_thread.
  destruct (numel_in op <=? i); [reflexivity|].
  rewrite select_backward_tmp_visited. reflexivity.
Qed.
End BackwardThreads.

(* ================================================================= *)
(** ** Max and min pooling, backward *)

(** C4: in max-pool and min-pool backward the gradient entry of an input
    position grows by the sum of the full [grad_out] values at exactly
    those visited output positions whose stored output equals the input
    value; an output position visited by two input positions that both
    equal its stored output gives its full [grad_out] to each of them. *)
Theorem max_min_pool2d_backward_ties {T : Type} {S : Scalar T} (op : Pool2dOp)
    (inp_strides out_strides : list Z) (m : pool_mem) (i : Z) :
  0 < stride op -> 0 <= i < numel_in op ->
  (exists m',
     max_pool2d_backward op inp_strides out_strides m i = Some m' /\
     min_pool2d_backward op inp_strides out_strides m i = Some m' /\
     grad_inp m' i =
       fadd (grad_inp m i)
            (fsum fzero (map (grad_out m) (selected_offsets op out_strides m i)))) /\
  (forall o, In o (selected_offsets op out_strides m i) <->
             In o (visited_offsets op out_strides i) /\
             feqb (out m o) (inp m i) = true) /\
  (forall i' o,
     In o (visited_offsets op out_strides i) ->
     In o (visited_offsets op out_strides i') ->
     feqb (out m o) (inp m i) = true -> feqb (out m o) (inp m i') = true ->
     In (grad_out m o) (map (grad_out m) (selected_offsets op out_strides m i)) /\
     In (grad_out m o) (map (grad_out m) (selected_offsets op out_strides m i'))).
Proof.
  intros Hs Hi. assert (Hs' : stride op <> 0) by lia. split; [|split].
  - exists (accumulate_thread (numel_in op) (select_contribution op out_strides) m i).
    rewrite max_pool2d_backward_thread, min_pool2d_backward_thread by exact Hs'.
    split; [reflexivity|]. split; [reflexivity|].
    unfold accumulate_thread. destruct (numel_in op <=? i) eqn:E; bool_to_prop; [lia|].
    cbn [grad_inp set_grad_inp]. unfold upd. rewrite Z.eqb_refl. reflexivity.
  - intros o. unfold selected_offsets. apply filter_In.
  - intros i' o V V' Q Q'. split; apply in_map; unfold selected_offsets;
      apply filter_In; auto.
Qed.

Lemma max_min_pool2d_backward_ties_witness :
  exists m' m'',
    @max_pool2d_backward _ binary32 single_window_op [4; 4; 2; 1] [1; 1; 1; 1] tie_mem 0
      = Some m' /\
    @max_pool2d_backward _ binary32 single_window_op [4; 4; 2; 1] [1; 1; 1; 1] tie_mem 1
      = Some m'' /\
    grad_inp m' 0 = SFof_size_t 24 128 3 /\ grad_inp m'' 1 = SFof_size_t 24 128 3.
Proof.
  assert (Hs : 0 < stride single_window_op) by reflexivity.
  assert (H0 : 0 <= 0 < numel_in single_window_op) by (vm_compute; split; congruence).
  assert (H1 : 0 <= 1 < numel_in single_window_op) by (vm_compute; split; congruence).
  destruct (proj1 (@max_min_pool2d_backward_ties _ binary32 single_window_op
                     [4; 4; 2; 1] [1; 1; 1; 1] tie_mem 0 Hs H0)) as [m' [A0 [_ G0]]].
  destruct (proj1 (@max_min_pool2d_backward_ties _ binary32 single_window_op
                     [4; 4; 2; 1] [1; 1; 1; 1] tie_mem 1 Hs H1)) as [m'' [A1 [_ G1]]].
  exists m', m''. split; [exact A0|]. split; [exact A1|].
  rewrite G0, G1. split; vm_compute; reflexivity.
Defined.

(* ================================================================= *)
(** ** Pooling, backward: launches *)

Section Launch.
Context {T : Type} {S : Scalar T}.
Variable thread : @pool_mem T -> Z -> option (@pool_mem T).
Variable n : Z.
Variable contrib : @pool_mem T -> Z -> T.
Hypothesis thread_accumulates :
  forall m i, thread m i = Some (accumulate_thread n contrib m i).
Hypothesis contrib_frame :
  forall m g i, contrib (set_grad_inp m g) i = contrib m i.

Lemma accumulate_thread_frame (m : pool_mem) (i : Z) :
  inp (accumulate_thread n contrib m i) = inp m /\
  out (accumulate_thread n contrib m i) = out m /\
  grad_out (accumulate_thread n contrib m i) = grad_out m /\
  (forall j, j <> i -> grad_inp (accumulate_thread n contrib m i) j = grad_inp m j) /\
  (i < n -> grad_inp (accumulate_thread n contrib m i) i
            = fadd (grad_inp m i) (contrib m i)) /\
  (n <= i -> grad_inp (accumulate_thread n contrib m i) i = grad_inp m i) /\
  (forall j, contrib (accumulate_thread n contrib m i) j = contrib m j).
Proof.
  unfold accumulate_thread.
  destruct (n <=? i) eqn:E; bool_to_prop; cbn [inp out grad_out grad_inp set_grad_inp];
    repeat split; try reflexivity; try lia.
  - intros j Hj. unfold upd. destruct (j =? i) eqn:Ej; bool_to_prop; [lia|reflexivity].
  - intros _. unfold upd. now rewrite Z.eqb_refl.
  - intros j. apply contrib_frame.
Qed.

Lemma launch_accumulates : accumulates thread n contrib.
Proof.
  intros sched. induction sched as [|i sched IH]; intros m Hnd Hnn.
  - exists m. cbn [launch fold_left]. repeat split; try reflexivity.
    intros j Hj. contradiction.
  - inversion Hnd as [|? ? Hni Hnd']; subst. inversion Hnn as [|? ? Hi Hnn']; subst.
    destruct (accumulate_thread_frame m i) as [F1 [F2 [F3 [F4 [F5 [F6 F7]]]]]].
    destruct (IH (accumulate_thread n contrib m i) Hnd' Hnn')
      as [m' [L [I1 [I2 [I3 [I4 I5]]]]]].
    exists m'. split.
    { unfold launch in *. cbn [fold_left]. rewrite thread_accumulates. exact L. }
    rewrite I1, I2, I3. repeat split; try assumption.
    + intros j [->|Hj] Hlt.
      * rewrite I5 by (left; exact Hni). apply F5. exact Hlt.
      * rewrite (I4 j Hj Hlt), F7, F4; [reflexivity|]. intros ->. contradiction.
    + intros j Hj. rewrite I5.
      * destruct (Z.eq_dec j i) as [->|Hne]; [|now apply F4].
        apply F6. destruct Hj as [Hj|Hj]; [|exact Hj]. exfalso. apply Hj. now left.
      * destruct Hj as [Hj|Hj]; [left|now right]. intros Hin. apply Hj. now right.
Qed.

(** Two threads with distinct indices do not see each other's write. *)
Lemma accumulate_thread_commute (m : pool_mem) (i1 i2 : Z) :
  i1 <> i2 ->
  forall j,
    grad_inp (accumulate_thread n contrib (accumulate_thread n contrib m i1) i2) j =
    grad_inp (accumulate_thread n contrib (accumulate_thread n contrib m i2) i1) j.
Proof.
  intros Hne j.
  destruct (accumulate_thread_frame m i1) as [_ [_ [_ [A4 [A5 [A6 A7]]]]]].
  destruct (accumulate_thread_frame m i2) as [_ [_ [_ [B4 [B5 [B6 B7]]]]]].
  destruct (accumulate_thread_frame (accumulate_thread n contrib m i1) i2)
    as [_ [_ [_ [C4 [C5 [C6 _]]]]]].
  destruct (accumulate_thread_frame (accumulate_thread n contrib m i2) i1)
    as [_ [_ [_ [D4 [D5 [D6 _]]]]]].
  destruct (Z.eq_dec j i1) as [->|H1]; [|destruct (Z.eq_dec j i2) as [->|H2]].
  - rewrite C4 by exact Hne. destruct (Z_lt_le_dec i1 n) as [Hl|Hl].
    + rewrite A5, D5, B7, B4 by auto. reflexivity.
    + rewrite A6, D6, B4 by auto. reflexivity.
  - rewrite D4 by auto. destruct (Z_lt_le_dec i2 n) as [Hl|Hl].
    + rewrite B5, C5, A7, A4 by auto. reflexivity.
    + rewrite B6, C6, A4 by auto. reflexivity.
  - rewrite C4, A4, D4, B4 by auto. reflexivity.
Qed.
End Launch.

(** C6: a pooling backward launch only adds to the gradient buffer.  For
    a non-zero stride and any schedule of distinct threads the launch of
    each of the three kernels is defined; afterwards every gradient entry
    of a scheduled input position equals its value before the launch plus
    the window contribution of that position, every other entry is
    unchanged, and [inp], [out] and [grad_out] are unchanged. *)
Theorem pool_backward_accumulates {T : Type} {S : Scalar T} (op : Pool2dOp)
    (inp_strides out_strides : list Z) :
  0 < stride op ->
  accumulates (avg_pool2d_backward op inp_strides out_strides)
              (numel_in op) (avg_contribution op out_strides) /\
  accumulates (max_pool2d_backward op inp_strides out_strides)
              (numel_in op) (select_contribution op out_strides) /\
  accumulates (min_pool2d_backward op inp_strides out_strides)
              (numel_in op) (select_contribution op out_strides).
Proof.
  intros Hs. assert (Hs' : stride op <> 0) by lia.
  split; [|split]; apply launch_accumulates; try reflexivity; intros m i.
  - now apply avg_pool2d_backward_thread.
  - now apply max_pool2d_backward_thread.
  - now apply min_pool2d_backward_thread.
Qed.

Lemma pool_backward_accumulates_witness :
  exists m',
    launch (@max_pool2d_backward _ binary32 single_window_op [4; 4; 2; 1] [1; 1; 1; 1])
           [1; 3; 0; 2] tie_mem = Some m' /\
    grad_inp m' 0 = SFadd 24 128 (grad_inp tie_mem 0) (SFof_size_t 24 128 3) /\
    grad_inp m' 1 = SFadd 24 128 (grad_inp tie_mem 1) (SFof_size_t 24 128 3) /\
    grad_inp m' 2 = SFadd 24 128 (grad_inp tie_mem 2) (S754_zero false) /\
    inp m' = inp tie_mem /\ out m' = out tie_mem /\ grad_out m' = grad_out tie_mem.
Proof.
  assert (Hs : 0 < stride single_window_op) by reflexivity.
  destruct (proj1 (proj2 (@pool_backward_accumulates _ binary32 single_window_op
                            [4; 4; 2; 1] [1; 1; 1; 1] Hs)) [1; 3; 0; 2] tie_mem)
    as [m' [L [I1 [I2 [I3 [I4 _]]]]]].
  - repeat constructor; simpl; intuition lia.
  - repeat constructor; lia.
  - exists m'. split; [exact L|].
    rewrite (I4 0), (I4 1), (I4 2) by (simpl; tauto || (vm_compute; reflexivity)).
    repeat split; try assumption; vm_compute; reflexivity.
Defined.

(** C8: in each pooling backward kernel, threads with distinct flat
    indices write distinct gradient entries, each only the entry at its
    own index, so a thread never sees or loses the write of another and
    the order of two threads does not matter. *)
Theorem pool_backward_writes_disjoint {T : Type} {S : Scalar T} (op : Pool2dOp)
    (inp_strides out_strides : list Z) :
  0 < stride op ->
  writes_disjoint (avg_pool2d_backward op inp_strides out_strides) /\
  writes_disjoint (max_pool2d_backward op inp_strides out_strides) /\
  writes_disjoint (min_pool2d_backward op inp_strides out_strides).
Proof.
  intros Hs. assert (Hs' : stride op <> 0) by lia.
  assert (G : forall thread contrib,
            (forall m i, thread m i = Some (accumulate_thread (numel_in op) contrib m i)) ->
            (forall m g i, contrib (set_grad_inp m g) i = contrib m i) ->
            writes_disjoint thread).
  { intros thread contrib Ht Hc m i1 i2 Hne.
    exists (accumulate_thread (numel_in op) contrib m i1),
           (accumulate_thread (numel_in op) contrib m i2),
           (accumulate_thread (numel_in op) contrib
              (accumulate_thread (numel_in op) contrib m i1) i2),
           (accumulate_thread (numel_in op) contrib
              (accumulate_thread (numel_in op) contrib m i2) i1).
    rewrite !Ht. repeat split.
    - intros j Hj. now apply (accumulate_thread_frame (numel_in op) contrib Hc m i1).
    - intros j Hj. now apply (accumulate_thread_frame (numel_in op) contrib Hc m i2).
    - now apply (accumulate_thread_frame (numel_in op) contrib Hc).
    - apply (accumulate_thread_frame (numel_in op) contrib Hc). auto.
    - now apply accumulate_thread_commute. }
  split; [|split].
  - apply (G _ (avg_contribution op out_strides)); [|reflexivity].
    intros m i. now apply avg_pool2d_backward_thread.
  - apply (G _ (select_contribution op out_strides)); [|reflexivity].
    intros m i. now apply max_pool2d_backward_thread.
  - apply (G _ (select_contribution op out_strides)); [|reflexivity].
    intros m i. now apply min_pool2d_backward_thread.
Qed.

Lemma pool_backward_writes_disjoint_witness :
  writes_disjoint (@avg_pool2d_backward _ binary32 padded_op [16; 16; 4; 1] [9; 9; 3; 1]) /\
  writes_disjoint (@max_pool2d_backward _ binary32 padded_op [16; 16; 4; 1] [9; 9; 3; 1]) /\
  writes_disjoint (@min_pool2d_backward _ binary32 padded_op [16; 16; 4; 1] [9; 9; 3; 1]).
Proof.
  apply (@pool_backward_writes_disjoint _ binary32 padded_op). reflexivity.
Defined.

(* ================================================================= *)
(** ** Strides the pooling kernels do not read *)

Lemma upd_other {T : Type} (b : buf T) (i j : Z) (v : T) :
  j <> i -> upd b i v j = b j.
Proof.
  intros H. unfold upd. destruct (j =? i) eqn:E; bool_to_prop; [contradiction|reflexivity].
Qed.

(** C9: the pooling forward kernels do not depend on [out_strides] and
    change [out] at most at the flat thread index; the pooling backward
    kernels do not depend on [inp_strides], change [grad_inp] at most at
    the flat thread index, and depend on [inp] at most through its value
    at that index. *)
Theorem pool_strides_unused {T : Type} {S : Scalar T} (op : Pool2dOp)
    (inp_strides inp_strides' out_strides out_strides' : list Z)
    (inp_buf out_buf : buf T) (m : pool_mem) (i : Z) :
  (avg_pool2d_forward op inp_strides out_strides inp_buf out_buf i =
   avg_pool2d_forward op inp_strides out_strides' inp_buf out_buf i /\
   max_pool2d_forward op inp_strides out_strides inp_buf out_buf i =
   max_pool2d_forward op inp_strides out_strides' inp_buf out_buf i /\
   min_pool2d_forward op inp_strides out_strides inp_buf out_buf i =
   min_pool2d_forward op inp_strides out_strides' inp_buf out_buf i) /\
  (forall j, j <> i ->
     avg_pool2d_forward op inp_strides out_strides inp_buf out_buf i j = out_buf j /\
     max_pool2d_forward op inp_strides out_strides inp_buf out_buf i j = out_buf j /\
     min_pool2d_forward op inp_strides out_strides inp_buf out_buf i j = out_buf j) /\
  (avg_pool2d_backward op inp_strides out_strides m i =
   avg_pool2d_backward op inp_strides' out_strides m i /\
   max_pool2d_backward op inp_strides out_strides m i =
   max_pool2d_backward op inp_strides' out_strides m i /\
   min_pool2d_backward op inp_strides out_strides m i =
   min_pool2d_backward op inp_strides' out_strides m i) /\
  (forall m',
     avg_pool2d_backward op inp_strides out_strides m i = Some m' \/
     max_pool2d_backward op inp_strides out_strides m i = Some m' \/
     min_pool2d_backward op inp_strides out_strides m i = Some m' ->
     forall j, j <> i -> grad_inp m' j = grad_inp m j) /\
  (forall v, v i = inp m i ->
     option_map grad_inp (avg_pool2d_backward op inp_strides out_strides (set_inp m v) i) =
     option_map grad_inp (avg_pool2d_backward op inp_strides out_strides m i) /\
     option_map grad_inp (max_pool2d_backward op inp_strides out_strides (set_inp m v) i) =
     option_map grad_inp (max_pool2d_backward op inp_strides out_strides m i) /\
     option_map grad_inp (min_pool2d_backward op inp_strides out_strides (set_inp m v) i) =
     option_map grad_inp (min_pool2d_backward op inp_strides out_strides m i)).
Proof.
  split; [repeat split|]. split; [|split; [repeat split|split]].
  - intros j Hj.
    unfold avg_pool2d_forward, max_pool2d_forward, min_pool2d_forward.
    destruct (numel_out op <=? i); [repeat split|].
    destruct (decode4 i (batch op) (chan op) (h_out op) (w_out op)) as [[[b c] oh] ow].
    repeat split; now apply upd_other.
  - intros m' H j Hj.
    unfold avg_pool2d_backward, max_pool2d_backward, min_pool2d_backward in H.
    destruct (numel_in op <=? i).
    + destruct H as [H|[H|H]]; inversion H; reflexivity.
    + destruct (avg_backward_tmp op out_strides m i), (select_backward_tmp op out_strides m i);
        destruct H as [H|[H|H]]; inversion H; cbn [grad_inp set_grad_inp];
        now apply upd_other.
  - intros v Hv.
    unfold avg_pool2d_backward, max_pool2d_backward, min_pool2d_backward.
    destruct (numel_in op <=? i); [repeat split|].
    assert (E1 : avg_backward_tmp op out_strides (set_inp m v) i =
                 avg_backward_tmp op out_strides m i) by reflexivity.
    assert (E2 : select_backward_tmp op out_strides (set_inp m v) i =
                 select_backward_tmp op out_strides m i).
    { unfold select_backward_tmp. cbn [inp out grad_out set_inp]. now rewrite Hv. }
    rewrite E1, E2.
    destruct (avg_backward_tmp op out_strides m i), (select_backward_tmp op out_strides m i);
      repeat split.
Qed.

Lemma pool_strides_unused_witness :
  @max_pool2d_forward _ binary32 padded_op [16; 16; 4; 1] [9; 9; 3; 1]
    (fun _ => SFone 24 128) (fun _ => S754_nan) 4 =
  @max_pool2d_forward _ binary32 padded_op [16; 16; 4; 1] [0; 1; 7; 30]
    (fun _ => SFone 24 128) (fun _ => S754_nan) 4 /\
  @max_pool2d_backward _ binary32 single_window_op [4; 4; 2; 1] [1; 1; 1; 1] tie_mem 1 =
  @max_pool2d_backward _ binary32 single_window_op [0; 9; 9; 5] [1; 1; 1; 1] tie_mem 1.
Proof.
  pose proof (@pool_strides_unused _ binary32 padded_op [16; 16; 4; 1] [16; 16; 4; 1]
                [9; 9; 3; 1] [0; 1; 7; 30] (fun _ => SFone 24 128) (fun _ => S754_nan)
                tie_mem 4) as [[_ [F _]] _].
  pose proof (@pool_strides_unused _ binary32 single_window_op [4; 4; 2; 1] [0; 9; 9; 5]
                [1; 1; 1; 1] [1; 1; 1; 1] (fun _ => SFone 24 128) (fun _ => S754_nan)
                tie_mem 1) as [_ [_ [[_ [B _]] _]]].
  split; [exact F|exact B].
Defined.

(* ================================================================= *)
(** ** Binary division, backward *)

Lemma zrange_split (n k : Z) :
  0 <= n <= k ->
  zrange k = zrange n ++ map Z.of_nat (seq (Z.to_nat n) (Z.to_nat (k - n))).
Proof.
  intros H. unfold zrange. rewrite <- map_app. f_equal.
  replace (Z.to_nat k) with (Z.to_nat n + Z.to_nat (k - n))%nat by lia.
  apply seq_app.
Qed.

Lemma filter_all_true {A : Type} (f : A -> bool) (l : list A) :
  (forall x, In x l -> f x = true) -> filter f l = l.
Proof.
  induction l as [|x l IH]; intros H; cbn [filter]; [reflexivity|].
  rewrite (H x) by now left. f_equal. apply IH. intros y Hy. apply H. now right.
Qed.

Lemma filter_all_false {A : Type} (f : A -> bool) (l : list A) :
  (forall x, In x l -> f x = false) -> filter f l = [].
Proof.
  induction l as [|x l IH]; intros H; cbn [filter]; [reflexivity|].
  rewrite (H x) by now left. apply IH. intros y Hy. apply H. now right.
Qed.

Section DivBackward.
Context {T : Type} {S : Scalar T}.
Variable a : @div_args T.
Variable grad_out : buf T.

Lemma run_atomics_rhs (tr : list atomic_add) (g : div_grads) (o : Z) :
  grad_rhs (run_atomics tr g) o = fsum (grad_rhs g o) (rhs_added o tr).
Proof.
  unfold run_atomics, fsum. revert g.
  induction tr as [|e tr IH]; intros g; cbn [fold_left rhs_added flat_map];
    [reflexivity|].
  rewrite IH, fold_left_app. f_equal.
  destruct e as [addr v|addr v]; cbn [apply_atomic grad_rhs fold_left]; [reflexivity|].
  unfold upd. rewrite (Z.eqb_sym o addr).
  destruct (addr =? o) eqn:E; bool_to_prop; [subst; reflexivity|reflexivity].
Qed.

Lemma run_atomics_lhs (tr : list atomic_add) (g : div_grads) (o : Z) :
  grad_lhs (run_atomics tr g) o = fsum (grad_lhs g o) (lhs_added o tr).
Proof.
  unfold run_atomics, fsum. revert g.
  induction tr as [|e tr IH]; intros g; cbn [fold_left lhs_added flat_map];
    [reflexivity|].
  rewrite IH, fold_left_app. f_equal.
  destruct e as [addr v|addr v]; cbn [apply_atomic grad_lhs fold_left]; [|reflexivity].
  unfold upd. rewrite (Z.eqb_sym o addr).
  destruct (addr =? o) eqn:E; bool_to_prop; [subst; reflexivity|reflexivity].
Qed.

(** What a list of threads adds to one element, thread by thread. *)
Lemma rhs_added_threads (o : Z) (l : list Z) :
  rhs_added o (flat_map (binary_div_backward a grad_out) l) =
  map (div_rhs_term a grad_out)
      (filter (fun i => rhs_index a i =? o) (filter (fun i => i <? numel a) l)).
Proof.
  unfold rhs_added. induction l as [|i l IH]; cbn [flat_map filter map]; [reflexivity|].
  rewrite flat_map_app, IH. unfold binary_div_backward.
  rewrite Z.leb_antisym. destruct (i <? numel a); cbn [negb flat_map filter app];
    [|reflexivity].
  destruct (rhs_index a i =? o); reflexivity.
Qed.

Lemma lhs_added_threads (o : Z) (l : list Z) :
  lhs_added o (flat_map (binary_div_backward a grad_out) l) =
  map (div_lhs_term a grad_out)
      (filter (fun i => lhs_index a i =? o) (filter (fun i => i <? numel a) l)).
Proof.
  unfold lhs_added. induction l as [|i l IH]; cbn [flat_map filter map]; [reflexivity|].
  rewrite flat_map_app, IH. unfold binary_div_backward.
  rewrite Z.leb_antisym. destruct (i <? numel a); cbn [negb flat_map filter app];
    [|reflexivity].
  destruct (lhs_index a i =? o); reflexivity.
Qed.

Lemma filter_below_numel (nthreads : Z) :
  0 <= numel a <= nthreads ->
  filter (fun i => i <? numel a) (zrange nthreads) = zrange (numel a).
Proof.
  intros H. rewrite (zrange_split (numel a) nthreads H), filter_app.
  rewrite filter_all_true, filter_all_false; [apply app_nil_r| |].
  - intros i Hi. apply in_map_iff in Hi. destruct Hi as [k [<- Hk]].
    apply in_seq in Hk. apply Z.ltb_ge. lia.
  - intros i Hi. apply in_zrange in Hi. apply Z.ltb_lt. lia.
Qed.
End DivBackward.

Lemma dot_stride_zero (d : nat) (mi mi' strides : list Z) :
  length mi = length mi' ->
  nth d strides 0 = 0 ->
  (forall e, e <> d -> nth e mi 0 = nth e mi' 0) ->
  dot mi strides = dot mi' strides.
Proof.
  revert d mi' strides.
  induction mi as [|x mi IH]; intros d [|x' mi'] [|s strides] Hl Hd He;
    simpl in Hl; try discriminate; try reflexivity.
  cbn [dot]. destruct d as [|d].
  - simpl in Hd. subst s.
    assert (Hmi : mi = mi').
    { apply (nth_ext mi mi' 0 0); [lia|]. intros k _.
      apply (He (Datatypes.S k)). discriminate. }
    subst mi'. lia.
  - rewrite (IH d mi' strides); [|lia|exact Hd|].
    + specialize (He 0%nat ltac:(lia)). simpl in He. subst. reflexivity.
    + intros e Hne. apply (He (Datatypes.S e)). lia.
Qed.

(** C5: a thread with flat index below [numel] atomically adds
    [(1.0 / y) * grad_out] to [grad_lhs] at its lhs offset and
    [(-x / (y * y)) * grad_out] to [grad_rhs] at its rhs offset.
    Whatever the order in which the atomic additions of a launch take
    effect, every element of [grad_rhs] ends as its initial value plus the
    sum, in that order, of [(-x / (y * y)) * grad_out] over exactly the
    flat indices below [numel] whose rhs offset is that element, and every
    element of [grad_lhs] likewise with [(1.0 / y) * grad_out] and the lhs
    offsets; when the rhs stride of a dimension is zero, flat indices that
    differ only in that coordinate have the same rhs offset, so their
    terms are summed into one element. *)
Theorem binary_div_backward_accumulates {T : Type} {S : Scalar T}
    (a : @div_args T) (grad_out : buf T) (nthreads : Z)
    (tr : list atomic_add) (g : div_grads) :
  0 <= numel a <= nthreads ->
  Permutation tr (div_backward_atomics a grad_out nthreads) ->
  (forall i, 0 <= i < numel a ->
     binary_div_backward a grad_out i =
     [AddLhs (lhs_index a i)
        (fmul (one_div_double (rhs a (rhs_index a i))) (grad_out (out_index a i)));
      AddRhs (rhs_index a i)
        (fmul (fdiv (fneg (lhs a (lhs_index a i)))
                    (fmul (rhs a (rhs_index a i)) (rhs a (rhs_index a i))))
              (grad_out (out_index a i)))]) /\
  (forall o, exists l,
     Permutation l (map (div_rhs_term a grad_out)
                        (filter (fun i => rhs_index a i =? o) (zrange (numel a)))) /\
     grad_rhs (run_atomics tr g) o = fsum (grad_rhs g o) l) /\
  (forall o, exists l,
     Permutation l (map (div_lhs_term a grad_out)
                        (filter (fun i => lhs_index a i =? o) (zrange (numel a)))) /\
     grad_lhs (run_atomics tr g) o = fsum (grad_lhs g o) l) /\
  (forall (d : nat) (i i' : Z),
     nth d (rhs_strides a) 0 = 0 ->
     (forall e, e <> d ->
        nth e (unravel (Z.to_nat (num_dims a)) i (dims a)) 0 =
        nth e (unravel (Z.to_nat (num_dims a)) i' (dims a)) 0) ->
     rhs_index a i = rhs_index a i').
Proof.
  intros Hn Hperm. split; [|split; [|split]].
  - intros i Hi. unfold binary_div_backward.
    destruct (numel a <=? i) eqn:E; bool_to_prop; [lia|reflexivity].
  - intros o. exists (rhs_added o tr). split; [|apply run_atomics_rhs].
    rewrite <- (filter_below_numel a nthreads Hn), <- rhs_added_threads.
    unfold rhs_added. apply Permutation_flat_map. exact Hperm.
  - intros o. exists (lhs_added o tr). split; [|apply run_atomics_lhs].
    rewrite <- (filter_below_numel a nthreads Hn), <- lhs_added_threads.
    unfold lhs_added. apply Permutation_flat_map. exact Hperm.
  - intros d i i' Hd He. unfold rhs_index, get_strided_index. f_equal.
    rewrite !get_strided_index_loop_dot. f_equal.
    apply (dot_stride_zero d); [now rewrite !unravel_length|exact Hd|exact He].
Qed.

Lemma binary_div_backward_accumulates_witness :
  let grad_out : buf spec_float := fun _ => SFone 24 128 in
  let g := {| grad_lhs := fun _ => S754_zero false;
              grad_rhs := fun _ => S754_zero false |} in
  let tr := rev (@div_backward_atomics _ binary32 broadcast_args grad_out 8) in
  exists l,
    Permutation l (map (@div_rhs_term _ binary32 broadcast_args grad_out) [1; 4]) /\
    grad_rhs (@run_atomics _ binary32 tr g) 1 = @fsum _ binary32 (S754_zero false) l.
Proof.
  intros grad_out g tr.
  assert (Hn : 0 <= numel broadcast_args <= 8) by (simpl; lia).
  assert (Hp : Permutation tr (@div_backward_atomics _ binary32 broadcast_args grad_out 8))
    by (apply Permutation_sym, Permutation_rev).
  destruct (proj1 (proj2 (@binary_div_backward_accumulates _ binary32 broadcast_args
                            grad_out 8 tr g Hn Hp)) 1) as [l [Hl Hg]].
  exists l. split; [exact Hl|exact Hg].
Defined.

(* ================================================================= *)
(** ** Flat indices and coordinates *)

Lemma div_mod_step (q r d : Z) :
  0 <= r < d -> (q * d + r) / d = q /\ (q * d + r) mod d = r.
Proof.
  intros H. split; symmetry.
  - apply (Z.div_unique _ d q r); [now left|ring].
  - apply (Z.mod_unique _ d q r); [now left|ring].
Qed.

(** The coordinates of a flat index below the element count are in range
    and flatten back to the index in row-major order. *)
Lemma decode4_flat (i d0 d1 d2 d3 b c h w : Z) :
  0 < d1 -> 0 < d2 -> 0 < d3 ->
  0 <= i < d0 * d1 * d2 * d3 -> i < 2 ^ 32 ->
  decode4 i d0 d1 d2 d3 = (b, c, h, w) ->
  (0 <= b < d0 /\ 0 <= c < d1 /\ 0 <= h < d2 /\ 0 <= w < d3) /\
  i = ((b * d1 + c) * d2 + h) * d3 + w.
Proof.
  intros H1 H2 H3 Hi H32 Hdec. unfold decode4 in Hdec.
  assert (Q1 : 0 <= i / d3 <= i).
  { split; [apply Z.div_pos; lia|]. apply Z.div_le_upper_bound; nia. }
  rewrite (wrap32_small (i / d3)) in Hdec by lia.
  assert (Q2 : 0 <= i / d3 / d2 <= i / d3).
  { split; [apply Z.div_pos; lia|]. apply Z.div_le_upper_bound; nia. }
  rewrite (wrap32_small (i / d3 / d2)) in Hdec by lia.
  assert (Q3 : 0 <= i / d3 / d2 / d1 <= i / d3 / d2).
  { split; [apply Z.div_pos; lia|]. apply Z.div_le_upper_bound; nia. }
  rewrite (wrap32_small (i / d3 / d2 / d1)) in Hdec by lia.
  assert (B1 : i / d3 < d0 * d1 * d2) by (apply Z.div_lt_upper_bound; lia).
  assert (B2 : i / d3 / d2 < d0 * d1) by (apply Z.div_lt_upper_bound; lia).
  assert (B3 : i / d3 / d2 / d1 < d0) by (apply Z.div_lt_upper_bound; lia).
  rewrite (Z.mod_small (i / d3 / d2 / d1) d0) in Hdec by lia.
  inversion Hdec; subst b c h w; clear Hdec.
  pose proof (Z.mod_pos_bound i d3 H3).
  pose proof (Z.mod_pos_bound (i / d3) d2 H2).
  pose proof (Z.mod_pos_bound (i / d3 / d2) d1 H1).
  split; [lia|].
  pose proof (Z.div_mod i d3 ltac:(lia)) as E1.
  pose proof (Z.div_mod (i / d3) d2 ltac:(lia)) as E2.
  pose proof (Z.div_mod (i / d3 / d2) d1 ltac:(lia)) as E3.
  rewrite E1 at 1. rewrite E2 at 1. rewrite E3 at 1. ring.
Qed.

(** The row-major offset of coordinates in range, without wrap-around. *)
Lemma strided4_contiguous (d0 d1 d2 d3 b c h w : Z) :
  0 <= b -> 0 <= c < d1 -> 0 <= h < d2 -> 0 <= w < d3 ->
  ((b * d1 + c) * d2 + h) * d3 + w < 2 ^ 64 ->
  strided4 (contiguous4 d0 d1 d2 d3) b c h w = ((b * d1 + c) * d2 + h) * d3 + w.
Proof.
  intros Hb Hc Hh Hw Hlt. unfold strided4, contiguous4. cbn [nth].
  assert (T1 : 0 <= b * (d1 * d2 * d3)) by (repeat apply Z.mul_nonneg_nonneg; lia).
  assert (T2 : 0 <= c * (d2 * d3)) by (repeat apply Z.mul_nonneg_nonneg; lia).
  assert (T3 : 0 <= h * d3) by (apply Z.mul_nonneg_nonneg; lia).
  assert (E : ((b * d1 + c) * d2 + h) * d3 + w =
              b * (d1 * d2 * d3) + c * (d2 * d3) + h * d3 + w * 1) by ring.
  unfold add64, mul64.
  rewrite (wrap64_small (b * (d1 * d2 * d3))), (wrap64_small (c * (d2 * d3))),
    (wrap64_small (h * d3)), (wrap64_small (w * 1)) by lia.
  rewrite (wrap64_small (b * (d1 * d2 * d3) + c * (d2 * d3))) by lia.
  rewrite (wrap64_small (b * (d1 * d2 * d3) + c * (d2 * d3) + h * d3)) by lia.
  rewrite wrap64_small by lia. lia.
Qed.

(** X1: in a pooling kernel the coordinates decoded from a flat thread
    index below the element count are in range, and the contiguous
    strides take them back to the flat index.  The index a forward kernel
    writes, [out[i]], is therefore the strided offset of its output
    position exactly for contiguous output strides. *)
Theorem decode4_strided4_round_trip (i d0 d1 d2 d3 b c h w : Z) :
  0 < d1 -> 0 < d2 -> 0 < d3 ->
  0 <= i < d0 * d1 * d2 * d3 -> i < 2 ^ 32 ->
  decode4 i d0 d1 d2 d3 = (b, c, h, w) ->
  (0 <= b < d0 /\ 0 <= c < d1 /\ 0 <= h < d2 /\ 0 <= w < d3) /\
  strided4 (contiguous4 d0 d1 d2 d3) b c h w = i.
Proof.
  intros H1 H2 H3 Hi H32 Hdec.
  destruct (decode4_flat i d0 d1 d2 d3 b c h w H1 H2 H3 Hi H32 Hdec) as [R E].
  split; [exact R|]. rewrite strided4_contiguous; lia.
Qed.

Lemma decode4_strided4_round_trip_witness :
  decode4 17 2 3 2 2 = (1, 1, 0, 1) /\
  strided4 (contiguous4 2 3 2 2) 1 1 0 1 = 17.
Proof.
  split; [reflexivity|].
  apply (decode4_strided4_round_trip 17 2 3 2 2 1 1 0 1); try lia; reflexivity.
Defined.

Lemma decode4_of_flat (d0 d1 d2 d3 b c h w : Z) :
  0 <= b < d0 -> 0 <= c < d1 -> 0 <= h < d2 -> 0 <= w < d3 ->
  ((b * d1 + c) * d2 + h) * d3 + w < 2 ^ 32 ->
  decode4 (((b * d1 + c) * d2 + h) * d3 + w) d0 d1 d2 d3 = (b, c, h, w).
Proof.
  intros Hb Hc Hh Hw Hlt. unfold decode4.
  destruct (div_mod_step ((b * d1 + c) * d2 + h) w d3 Hw) as [D1 M1].
  destruct (div_mod_step (b * d1 + c) h d2 Hh) as [D2 M2].
  destruct (div_mod_step b c d1 Hc) as [D3 M3].
  assert (0 <= b * d1) by nia.
  assert (0 <= (b * d1 + c) * d2) by nia.
  assert (0 <= ((b * d1 + c) * d2 + h) * d3) by nia.
  assert (b <= b * d1) by nia.
  assert (b * d1 + c <= (b * d1 + c) * d2) by nia.
  assert ((b * d1 + c) * d2 + h <= ((b * d1 + c) * d2 + h) * d3) by nia.
  rewrite M1, D1. rewrite (wrap32_small ((b * d1 + c) * d2 + h)) by lia.
  rewrite M2, D2. rewrite (wrap32_small (b * d1 + c)) by lia.
  rewrite M3, D3. rewrite (wrap32_small b) by lia.
  rewrite (Z.mod_small b d0) by lia. reflexivity.
Qed.

(** X2: conversely, the contiguous offset of coordinates in range decodes
    to those coordinates. *)
Theorem strided4_decode4_round_trip (d0 d1 d2 d3 b c h w : Z) :
  0 <= b < d0 -> 0 <= c < d1 -> 0 <= h < d2 -> 0 <= w < d3 ->
  ((b * d1 + c) * d2 + h) * d3 + w < 2 ^ 32 ->
  decode4 (strided4 (contiguous4 d0 d1 d2 d3) b c h w) d0 d1 d2 d3 = (b, c, h, w).
Proof.
  intros Hb Hc Hh Hw Hlt.
  rewrite strided4_contiguous by lia. now apply decode4_of_flat.
Qed.

Lemma strided4_decode4_round_trip_witness :
  decode4 (strided4 (contiguous4 2 3 2 2) 1 1 0 1) 2 3 2 2 = (1, 1, 0, 1).
Proof.
  apply (strided4_decode4_round_trip 2 3 2 2 1 1 0 1); simpl; lia.
Defined.

(* ================================================================= *)
(** ** Windows without repetition *)

Lemma nodup_pairs {A B : Type} (l1 : list A) (l2 : list B) :
  NoDup l1 -> NoDup l2 ->
  NoDup (flat_map (fun a => map (fun b => (a, b)) l2) l1).
Proof.
  intros H1 H2. induction H1 as [|a l1 Ha H1 IH]; cbn [flat_map]; [constructor|].
  apply NoDup_app.
  - apply Finite.Injective_map_NoDup; [|exact H2]. intros b b' E. now inversion E.
  - exact IH.
  - intros [a' b'] Hin Hin'. apply in_map_iff in Hin. destruct Hin as [b [E _]].
    inversion E; subst. apply in_flat_map in Hin'. destruct Hin' as [a'' [Ha'' Hb]].
    apply in_map_iff in Hb. destruct Hb as [b'' [E' _]]. inversion E'; subst.
    contradiction.
Qed.

Lemma offsets_nodup (n : Z) : NoDup (offsets n).
Proof. apply nodup_pairs; apply zrange_nodup. Qed.

Lemma nodup_select {B C : Type} (sel : C -> option B) (l : list C) :
  NoDup l ->
  (forall k k' p, In k l -> In k' l -> sel k = Some p -> sel k' = Some p -> k = k') ->
  NoDup (flat_map (fun k => match sel k with Some p => [p] | None => [] end) l).
Proof.
  intros Hnd. induction Hnd as [|k l Hk Hnd IH]; intros Hinj; cbn [flat_map];
    [constructor|].
  assert (IH' : NoDup (flat_map (fun k => match sel k with
                                          | Some p => [p]
                                          | None => []
                                          end) l)).
  { apply IH. intros a a' p Ha Ha'. apply Hinj; now right. }
  destruct (sel k) as [p|] eqn:E; [|exact IH'].
  cbn [app]. constructor; [|exact IH'].
  intros Hin. apply in_flat_map in Hin. destruct Hin as [k' [Hk' Hp]].
  destruct (sel k') as [p'|] eqn:E'; cbn [In] in Hp; [|contradiction].
  destruct Hp as [->|[]].
  assert (k = k') by (apply (Hinj k k' p); [now left|now right|exact E|exact E']).
  subst. contradiction.
Qed.

Lemma length_select_unique {B C : Type} (sel : C -> option B) (l : list C) :
  NoDup l ->
  (forall k k', In k l -> In k' l -> sel k <> None -> sel k' <> None -> k = k') ->
  (length (flat_map (fun k => match sel k with Some p => [p] | None => [] end) l)
   <= 1)%nat.
Proof.
  intros Hnd. induction Hnd as [|k l Hk Hnd IH]; intros Huniq; cbn [flat_map];
    [simpl; lia|].
  destruct (sel k) as [p|] eqn:E.
  - rewrite (select_none_nil sel l); [simpl; lia|].
    intros k' Hk'. destruct (sel k') eqn:E'; [|reflexivity].
    assert (k = k').
    { apply Huniq; [now left|now right|congruence|congruence]. }
    subst. contradiction.
  - cbn [app]. apply IH. intros a a' Ha Ha'. apply Huniq; now right.
Qed.

Lemma add_mod_injective (a k k' m : Z) :
  0 <= k < m -> 0 <= k' < m -> (a + k) mod m = (a + k') mod m -> k = k'.
Proof.
  intros Hk Hk' E.
  assert (Ek : ((a + k) mod m - a) mod m = k)
    by (rewrite Zminus_mod_idemp_l; replace (a + k - a) with k by ring;
        now apply Z.mod_small).
  assert (Ek' : ((a + k') mod m - a) mod m = k')
    by (rewrite Zminus_mod_idemp_l; replace (a + k' - a) with k' by ring;
        now apply Z.mod_small).
  rewrite E in Ek. congruence.
Qed.

(** The padded coordinates behind a forward read. *)
Lemma fwd_window_padded (op : Pool2dOp) (oh ow k1 k2 y x : Z) :
  0 <= padding op ->
  fwd_window op oh ow k1 k2 = Some (y, x) ->
  y + padding op = add64 (mul64 oh (stride op)) k1 /\
  x + padding op = add64 (mul64 ow (stride op)) k2.
Proof.
  intros Hp. unfold fwd_window.
  pose proof (wrap64_range (mul64 oh (stride op) + k1)) as Ry.
  pose proof (wrap64_range (mul64 ow (stride op) + k2)) as Rx.
  unfold add64. set (Y := wrap64 (mul64 oh (stride op) + k1)) in *.
  set (X := wrap64 (mul64 ow (stride op) + k2)) in *.
  destruct (Y <? padding op) eqn:E1; [discriminate|].
  destruct (h_in op <=? sub64 Y (padding op)); [discriminate|].
  destruct (X <? padding op) eqn:E2; [discriminate|].
  destruct (w_in op <=? sub64 X (padding op)); [discriminate|].
  intros H. inversion H; subst. bool_to_prop.
  unfold sub64. rewrite !wrap64_small by lia. lia.
Qed.

(** X3: a forward window never reads the same input position twice. *)
Theorem fwd_inputs_nodup (op : Pool2dOp) (oh ow : Z) :
  wf_op op -> NoDup (fwd_inputs op oh ow).
Proof.
  intros Hwf. unfold fwd_inputs. apply nodup_select; [apply offsets_nodup|].
  intros [k1 k2] [k1' k2'] [y x] Hk Hk' E E'. cbn [fst snd] in E, E'.
  apply in_offsets in Hk. apply in_offsets in Hk'.
  destruct Hwf as [[_ Hker] [_ [[Hp _] _]]].
  apply fwd_window_padded in E; [|exact Hp]. apply fwd_window_padded in E'; [|exact Hp].
  destruct E as [E1 E2], E' as [E1' E2']. unfold add64, wrap64 in *.
  f_equal.
  - apply (add_mod_injective (mul64 oh (stride op)) k1 k1' (2 ^ 64)); lia.
  - apply (add_mod_injective (mul64 ow (stride op)) k2 k2' (2 ^ 64)); lia.
Qed.

Lemma fwd_inputs_nodup_witness : NoDup (fwd_inputs padded_op 1 1).
Proof.
  apply (fwd_inputs_nodup padded_op 1 1).
  unfold wf_op, is_size_t, padded_op; simpl. lia.
Defined.

(** The guards a passing backward iteration has passed, on the wrapped
    padded coordinates. *)
Lemma bwd_candidate_passed (op : Pool2dOp) (y x k1 k2 oh ow : Z) :
  0 <= k1 -> 0 <= k2 ->
  bwd_candidate op y x k1 k2 = Visited oh ow ->
  stride op <> 0 /\
  (k1 <= add64 y (padding op) /\
   (add64 y (padding op) - k1) mod stride op = 0 /\
   oh = (add64 y (padding op) - k1) / stride op /\ oh < h_out op) /\
  (k2 <= add64 x (padding op) /\
   (add64 x (padding op) - k2) mod stride op = 0 /\
   ow = (add64 x (padding op) - k2) / stride op /\ ow < w_out op).
Proof.
  intros Hk1 Hk2. unfold bwd_candidate.
  pose proof (wrap64_range (y + padding op)) as Ry.
  pose proof (wrap64_range (x + padding op)) as Rx.
  unfold add64. set (Y := wrap64 (y + padding op)) in *.
  set (X := wrap64 (x + padding op)) in *.
  destruct (Y <? k1) eqn:E1; bool_to_prop; [discriminate|].
  unfold sub64. rewrite (wrap64_small (Y - k1)) by lia.
  destruct (stride op =? 0) eqn:E0; bool_to_prop; [discriminate|].
  destruct (negb ((Y - k1) mod stride op =? 0)) eqn:E2; bool_to_prop; [discriminate|].
  destruct (h_out op <=? (Y - k1) / stride op) eqn:E3; bool_to_prop; [discriminate|].
  destruct (X <? k2) eqn:E4; bool_to_prop; [discriminate|].
  rewrite (wrap64_small (X - k2)) by lia.
  destruct (negb ((X - k2) mod stride op =? 0)) eqn:E5; bool_to_prop; [discriminate|].
  destruct (w_out op <=? (X - k2) / stride op) eqn:E6; bool_to_prop; [discriminate|].
  intros H. inversion H; subst. repeat split; auto; lia.
Qed.

Lemma exact_quotient (a s : Z) : s <> 0 -> a mod s = 0 -> a = a / s * s.
Proof. intros Hs Hm. rewrite (Z.div_mod a s Hs) at 1. rewrite Hm. ring. Qed.

(** X4: the backward loop of an input position never reads the same
    output position twice, so no output gradient is added twice. *)
Theorem bwd_visited_nodup (op : Pool2dOp) (y x : Z) : NoDup (bwd_visited op y x).
Proof.
  rewrite bwd_visited_select. apply nodup_select; [apply offsets_nodup|].
  intros [k1 k2] [k1' k2'] [oh ow] Hk Hk' E E'. cbn [fst snd] in E, E'.
  apply in_offsets in Hk. apply in_offsets in Hk'.
  destruct (bwd_candidate op y x k1 k2) as [| |a b] eqn:C; try discriminate.
  destruct (bwd_candidate op y x k1' k2') as [| |a' b'] eqn:C'; try discriminate.
  inversion E; inversion E'; subst.
  apply bwd_candidate_passed in C; try lia. apply bwd_candidate_passed in C'; try lia.
  destruct C as [Hs [[_ [M1 [Q1 _]]] [_ [M2 [Q2 _]]]]].
  destruct C' as [_ [[_ [M1' [Q1' _]]] [_ [M2' [Q2' _]]]]].
  pose proof (exact_quotient _ _ Hs M1) as X1.
  pose proof (exact_quotient _ _ Hs M1') as X1'.
  pose proof (exact_quotient _ _ Hs M2) as X2.
  pose proof (exact_quotient _ _ Hs M2') as X2'.
  rewrite <- Q1 in X1. rewrite <- Q1' in X1'. rewrite <- Q2 in X2. rewrite <- Q2' in X2'.
  f_equal; lia.
Qed.

(** X5: when the windows do not overlap (kernel <= stride), the backward
    loop of an input position reads at most one output position. *)
Theorem bwd_visited_at_most_one (op : Pool2dOp) (y x : Z) :
  kernel op <= stride op -> (length (bwd_visited op y x) <= 1)%nat.
Proof.
  intros Hks. rewrite bwd_visited_select.
  apply length_select_unique; [apply offsets_nodup|].
  intros [k1 k2] [k1' k2'] Hk Hk' E E'. cbn [fst snd] in E, E'.
  apply in_offsets in Hk. apply in_offsets in Hk'.
  destruct (bwd_candidate op y x k1 k2) as [| |a b] eqn:C; try congruence.
  destruct (bwd_candidate op y x k1' k2') as [| |a' b'] eqn:C'; try congruence.
  apply bwd_candidate_passed in C; try lia. apply bwd_candidate_passed in C'; try lia.
  destruct C as [Hs [[_ [M1 _]] [_ [M2 _]]]].
  destruct C' as [_ [[_ [M1' _]] [_ [M2' _]]]].
  pose proof (exact_quotient _ _ Hs M1) as X1.
  pose proof (exact_quotient _ _ Hs M1') as X1'.
  pose proof (exact_quotient _ _ Hs M2) as X2.
  pose proof (exact_quotient _ _ Hs M2') as X2'.
  assert (E1 : k1' - k1 = ((add64 y (padding op) - k1) / stride op
                           - (add64 y (padding op) - k1') / stride op) * stride op) by lia.
  assert (E2 : k2' - k2 = ((add64 x (padding op) - k2) / stride op
                           - (add64 x (padding op) - k2') / stride op) * stride op) by lia.
  set (d1 := (add64 y (padding op) - k1) / stride op
             - (add64 y (padding op) - k1') / stride op) in E1.
  set (d2 := (add64 x (padding op) - k2) / stride op
             - (add64 x (padding op) - k2') / stride op) in E2.
  clearbody d1 d2. clear X1 X1' X2 X2' M1 M1' M2 M2' E E'.
  assert (d1 = 0) by nia. assert (d2 = 0) by nia. subst d1 d2.
  f_equal; lia.
Qed.

Lemma bwd_visited_at_most_one_witness : (length (bwd_visited padded_op 2 3) <= 1)%nat.
Proof. apply (bwd_visited_at_most_one padded_op 2 3). simpl. lia. Defined.

(* ================================================================= *)
(** ** What the pooling kernels read *)

Lemma mul64_nonzero (a b : Z) : mul64 a b <> 0 -> a <> 0 /\ b <> 0.
Proof.
  intros H. split; intros ->; apply H; unfold mul64, wrap64;
    rewrite ?Z.mul_0_l, ?Z.mul_0_r; reflexivity.
Qed.

Lemma numel_out_dims (op : Pool2dOp) (i : Z) :
  wf_op op -> 0 <= i < numel_out op ->
  0 < batch op /\ 0 < chan op /\ 0 < h_out op /\ 0 < w_out op.
Proof.
  intros [_ [_ [_ [[Hb _] [[Hc _] [_ [[Hh _] [_ [Hw _]]]]]]]]] Hi.
  unfold numel_out in Hi.
  assert (N0 : mul64 (mul64 (mul64 (batch op) (chan op)) (h_out op)) (w_out op) <> 0)
    by lia.
  destruct (mul64_nonzero _ _ N0) as [N1 N2].
  destruct (mul64_nonzero _ _ N1) as [N3 N4].
  destruct (mul64_nonzero _ _ N3) as [N5 N6]. lia.
Qed.

Lemma numel_in_dims (op : Pool2dOp) (i : Z) :
  wf_op op -> 0 <= i < numel_in op ->
  0 < batch op /\ 0 < chan op /\ 0 < h_in op /\ 0 < w_in op.
Proof.
  intros [_ [_ [_ [[Hb _] [[Hc _] [[Hh _] [_ [[Hw _] _]]]]]]]] Hi.
  unfold numel_in in Hi.
  assert (N0 : mul64 (mul64 (mul64 (batch op) (chan op)) (h_in op)) (w_in op) <> 0)
    by lia.
  destruct (mul64_nonzero _ _ N0) as [N1 N2].
  destruct (mul64_nonzero _ _ N1) as [N3 N4].
  destruct (mul64_nonzero _ _ N3) as [N5 N6]. lia.
Qed.

Lemma decode4_bounds (i d0 d1 d2 d3 b c h w : Z) :
  0 < d0 -> 0 < d1 -> 0 < d2 -> 0 < d3 ->
  decode4 i d0 d1 d2 d3 = (b, c, h, w) ->
  0 <= b < d0 /\ 0 <= c < d1 /\ 0 <= h < d2 /\ 0 <= w < d3.
Proof.
  intros H0 H1 H2 H3 Hdec. unfold decode4 in Hdec. inversion Hdec; subst.
  repeat split; apply Z.mod_pos_bound; assumption.
Qed.

(** The flat index of coordinates in range is below the element count. *)
Lemma flat_index_bound (d0 d1 d2 d3 b c h w : Z) :
  0 <= b < d0 -> 0 <= c < d1 -> 0 <= h < d2 -> 0 <= w < d3 ->
  0 <= ((b * d1 + c) * d2 + h) * d3 + w < d0 * d1 * d2 * d3.
Proof.
  intros Hb Hc Hh Hw.
  assert (A0 : 0 <= b * d1 + c) by nia.
  assert (A1 : b * d1 + c + 1 <= d0 * d1) by nia.
  assert (B0 : 0 <= (b * d1 + c) * d2 + h) by nia.
  assert (B1 : (b * d1 + c) * d2 + h + 1 <= d0 * d1 * d2).
  { assert ((b * d1 + c + 1) * d2 <= d0 * d1 * d2)
      by (apply Z.mul_le_mono_nonneg_r; lia). lia. }
  assert (C1 : ((b * d1 + c) * d2 + h + 1) * d3 <= d0 * d1 * d2 * d3)
    by (apply Z.mul_le_mono_nonneg_r; lia).
  split; [nia|lia].
Qed.

Lemma strided4_contiguous_bound (d0 d1 d2 d3 b c h w : Z) :
  0 <= b < d0 -> 0 <= c < d1 -> 0 <= h < d2 -> 0 <= w < d3 ->
  d0 * d1 * d2 * d3 < 2 ^ 64 ->
  0 <= strided4 (contiguous4 d0 d1 d2 d3) b c h w < d0 * d1 * d2 * d3.
Proof.
  intros Hb Hc Hh Hw Hfit.
  pose proof (flat_index_bound d0 d1 d2 d3 b c h w Hb Hc Hh Hw).
  rewrite strided4_contiguous; lia.
Qed.

Lemma fold_left_ext_in {A B : Type} (f g : A -> B -> A) (l : list B) (init : A) :
  (forall acc p, In p l -> f acc p = g acc p) ->
  fold_left f l init = fold_left g l init.
Proof.
  revert init. induction l as [|p l IH]; intros init H; cbn [fold_left]; [reflexivity|].
  rewrite (H init p) by now left. apply IH. intros acc q Hq. apply H. now right.
Qed.

Lemma window_loop_ext {A : Type} (n : Z) (body body' : A -> Z -> Z -> A) (init : A) :
  (forall acc k1 k2, 0 <= k1 < n -> 0 <= k2 < n -> body acc k1 k2 = body' acc k1 k2) ->
  window_loop n body init = window_loop n body' init.
Proof.
  intros H. rewrite !window_loop_offsets. apply fold_left_ext_in.
  intros acc [k1 k2] Hk. apply in_offsets in Hk. cbn [fst snd]. apply H; tauto.
Qed.

(** X6: with contiguous input strides the forward kernels read the input
    only at indices below the input element count: input buffers that
    agree there give the same output buffer. *)
Theorem pool_forward_reads_in_bounds {T : Type} {S : Scalar T} (op : Pool2dOp)
    (out_strides : list Z) (inp1 inp2 out_buf : buf T) (i : Z) :
  wf_op op -> count_in op < 2 ^ 64 -> 0 <= i ->
  (forall j, 0 <= j < count_in op -> inp1 j = inp2 j) ->
  avg_pool2d_forward op (inp_contiguous op) out_strides inp1 out_buf i =
  avg_pool2d_forward op (inp_contiguous op) out_strides inp2 out_buf i /\
  max_pool2d_forward op (inp_contiguous op) out_strides inp1 out_buf i =
  max_pool2d_forward op (inp_contiguous op) out_strides inp2 out_buf i /\
  min_pool2d_forward op (inp_contiguous op) out_strides inp1 out_buf i =
  min_pool2d_forward op (inp_contiguous op) out_strides inp2 out_buf i.
Proof.
  intros Hwf Hfit Hi Hagree.
  unfold avg_pool2d_forward, max_pool2d_forward, min_pool2d_forward.
  destruct (numel_out op <=? i) eqn:E; [repeat split|]. bool_to_prop.
  destruct (numel_out_dims op i Hwf ltac:(lia)) as [Pb [Pc [Ph Pw]]].
  destruct (decode4 i (batch op) (chan op) (h_out op) (w_out op))
    as [[[b c] oh] ow] eqn:Hdec.
  destruct (decode4_bounds _ _ _ _ _ _ _ _ _ Pb Pc Ph Pw Hdec) as [Rb [Rc _]].
  assert (Hread : forall k1 k2 y x,
             fwd_window op oh ow k1 k2 = Some (y, x) ->
             inp1 (strided4 (inp_contiguous op) b c y x) =
             inp2 (strided4 (inp_contiguous op) b c y x)).
  { intros k1 k2 y x Hf. apply fwd_window_in_bounds in Hf. destruct Hf as [Ry Rx].
    apply Hagree. unfold inp_contiguous, count_in in *.
    apply strided4_contiguous_bound; assumption. }
  repeat split; f_equal; [f_equal| |]; apply window_loop_ext;
    intros acc k1 k2 _ _;
    destruct (fwd_window op oh ow k1 k2) as [[y x]|] eqn:Hf; try reflexivity;
    now rewrite (Hread k1 k2 y x Hf).
Qed.

Lemma pool_forward_reads_in_bounds_witness :
  @max_pool2d_forward _ binary32 padded_op (inp_contiguous padded_op) [9; 9; 3; 1]
    (buf_of_list S754_nan (map (SFof_size_t 24 128) [1; 2; 3; 4; 5; 6; 7; 8; 9; 10; 11; 12; 13; 14; 15; 16]))
    (fun _ => S754_nan) 8 =
  @max_pool2d_forward _ binary32 padded_op (inp_contiguous padded_op) [9; 9; 3; 1]
    (buf_of_list (S754_infinity false)
       (map (SFof_size_t 24 128) [1; 2; 3; 4; 5; 6; 7; 8; 9; 10; 11; 12; 13; 14; 15; 16]))
    (fun _ => S754_nan) 8.
Proof.
  refine (proj1 (proj2 (@pool_forward_reads_in_bounds _ binary32 padded_op [9; 9; 3; 1]
                          _ _ (fun _ => S754_nan) 8 _ _ _ _))).
  - unfold wf_op, is_size_t, padded_op; simpl. lia.
  - vm_compute. reflexivity.
  - lia.
  - intros j Hj. change (count_in padded_op) with 16 in Hj.
    unfold buf_of_list. destruct (j <? 0) eqn:E; bool_to_prop; [lia|].
    apply nth_indep. rewrite length_map. simpl. lia.
Defined.

Lemma window_loop_opt_ext {A : Type} (n : Z) (body body' : A -> Z -> Z -> option A)
    (init : A) :
  (forall acc k1 k2, 0 <= k1 < n -> 0 <= k2 < n -> body acc k1 k2 = body' acc k1 k2) ->
  window_loop_opt n body init = window_loop_opt n body' init.
Proof.
  intros H. unfold window_loop_opt. apply window_loop_ext.
  intros [a|] k1 k2 H1 H2; [now apply H|reflexivity].
Qed.

(** The output positions a backward iteration reads are in range. *)
Lemma bwd_candidate_in_range (op : Pool2dOp) (y x k1 k2 oh ow : Z) :
  0 <= stride op -> 0 <= k1 -> 0 <= k2 ->
  bwd_candidate op y x k1 k2 = Visited oh ow ->
  0 <= oh < h_out op /\ 0 <= ow < w_out op.
Proof.
  intros Hs Hk1 Hk2 Hc. apply bwd_candidate_passed in Hc; try assumption.
  destruct Hc as [Hs' [[A1 [_ [A3 A4]]] [B1 [_ [B3 B4]]]]].
  assert (0 <= oh) by (subst oh; apply Z.div_pos; lia).
  assert (0 <= ow) by (subst ow; apply Z.div_pos; lia). lia.
Qed.

(** X7: with contiguous output strides a backward thread reads [out] and
    [grad_out] only at indices below the output element count; its new
    gradient entry depends on nothing else but [grad_inp[i]] and
    [inp[i]]. *)
Theorem pool_backward_reads_in_bounds {T : Type} {S : Scalar T} (op : Pool2dOp)
    (inp_strides : list Z) (m1 m2 : pool_mem) (i : Z) :
  wf_op op -> count_out op < 2 ^ 64 -> 0 <= i ->
  grad_inp m1 i = grad_inp m2 i -> inp m1 i = inp m2 i ->
  (forall j, 0 <= j < count_out op ->
             out m1 j = out m2 j /\ grad_out m1 j = grad_out m2 j) ->
  option_map (fun r => grad_inp r i)
    (avg_pool2d_backward op inp_strides (out_contiguous op) m1 i) =
  option_map (fun r => grad_inp r i)
    (avg_pool2d_backward op inp_strides (out_contiguous op) m2 i) /\
  option_map (fun r => grad_inp r i)
    (max_pool2d_backward op inp_strides (out_contiguous op) m1 i) =
  option_map (fun r => grad_inp r i)
    (max_pool2d_backward op inp_strides (out_contiguous op) m2 i) /\
  option_map (fun r => grad_inp r i)
    (min_pool2d_backward op inp_strides (out_contiguous op) m1 i) =
  option_map (fun r => grad_inp r i)
    (min_pool2d_backward op inp_strides (out_contiguous op) m2 i).
Proof.
  intros Hwf Hfit Hi Hg Hv Hagree.
  unfold avg_pool2d_backward, max_pool2d_backward, min_pool2d_backward.
  destruct (numel_in op <=? i) eqn:E; [cbn [option_map]; rewrite Hg; repeat split|].
  bool_to_prop.
  destruct (numel_in_dims op i Hwf ltac:(lia)) as [Pb [Pc [Ph Pw]]].
  assert (Hs : 0 <= stride op) by (destruct Hwf as [_ [[Hs _] _]]; exact Hs).
  assert (Etmp : avg_backward_tmp op (out_contiguous op) m1 i =
                 avg_backward_tmp op (out_contiguous op) m2 i /\
                 select_backward_tmp op (out_contiguous op) m1 i =
                 select_backward_tmp op (out_contiguous op) m2 i).
  { unfold avg_backward_tmp, select_backward_tmp.
    destruct (decode4 i (batch op) (chan op) (h_in op) (w_in op))
      as [[[b c] y] x] eqn:Hdec.
    destruct (decode4_bounds _ _ _ _ _ _ _ _ _ Pb Pc Ph Pw Hdec) as [Rb [Rc _]].
    split; apply window_loop_opt_ext; intros acc k1 k2 Hk1 Hk2;
      destruct (bwd_candidate op y x k1 k2) as [| |oh ow] eqn:Hc; try reflexivity;
      destruct (bwd_candidate_in_range op y x k1 k2 oh ow Hs ltac:(lia) ltac:(lia) Hc)
        as [Roh Row];
      destruct (Hagree (strided4 (out_contiguous op) b c oh ow)) as [Ho Hgo];
      try (unfold out_contiguous, count_out in *;
           apply strided4_contiguous_bound; assumption);
      cbv zeta; rewrite ?Ho, ?Hgo, ?Hv; reflexivity. }
  destruct Etmp as [Ea Es]. rewrite Ea, Es.
  destruct (avg_backward_tmp op (out_contiguous op) m2 i),
           (select_backward_tmp op (out_contiguous op) m2 i);
    cbn [option_map grad_inp set_grad_inp]; unfold upd; rewrite ?Z.eqb_refl, ?Hg;
    repeat split.
Qed.

Lemma pool_backward_reads_in_bounds_witness :
  let m2 : @pool_mem spec_float :=
    {| inp := inp tie_mem;
       grad_inp := grad_inp tie_mem;
       out := buf_of_list (S754_zero false) (map (SFof_size_t 24 128) [5]);
       grad_out := buf_of_list (S754_infinity true) (map (SFof_size_t 24 128) [3]) |} in
  option_map (fun r => grad_inp r 1)
    (@max_pool2d_backward _ binary32 single_window_op [4; 4; 2; 1]
       (out_contiguous single_window_op) tie_mem 1) =
  option_map (fun r => grad_inp r 1)
    (@max_pool2d_backward _ binary32 single_window_op [4; 4; 2; 1]
       (out_contiguous single_window_op) m2 1).
Proof.
  intros m2.
  refine (proj1 (proj2 (@pool_backward_reads_in_bounds _ binary32 single_window_op
                          [4; 4; 2; 1] tie_mem m2 1 _ _ _ _ _ _))).
  - unfold wf_op, is_size_t, single_window_op; simpl. lia.
  - vm_compute. reflexivity.
  - lia.
  - reflexivity.
  - reflexivity.
  - intros j Hj. change (count_out single_window_op) with 1 in Hj.
    assert (j = 0) as -> by lia. split; reflexivity.
Defined.

(* ================================================================= *)
(** ** Forward launches *)

(** A thread that stores a value of its own at its index when the index
    is below [n]. *)
Lemma launch_forward_overwrites {T : Type} (thread : buf T -> Z -> buf T)
    (n : Z) (val : Z -> T) (sched : list Z) (out_buf : buf T) (j : Z) :
  (forall o i, thread o i = if n <=? i then o else upd o i (val i)) ->
  (In j sched -> j < n -> launch_forward thread sched out_buf j = val j) /\
  (~ In j sched \/ n <= j -> launch_forward thread sched out_buf j = out_buf j).
Proof.
  intros Ht. unfold launch_forward. revert out_buf.
  induction sched as [|i sched IH]; intros out_buf; cbn [fold_left In].
  - split; [contradiction|reflexivity].
  - destruct (IH (thread out_buf i)) as [IH1 IH2].
    assert (Hi : forall k, k <> i \/ n <= k -> thread out_buf i k = out_buf k).
    { intros k Hk. rewrite Ht. destruct (n <=? i) eqn:E; [reflexivity|].
      bool_to_prop. apply upd_other. lia. }
    split.
    + intros Hin Hlt.
      destruct (in_dec Z.eq_dec j sched) as [Hs|Hs]; [now apply IH1|].
      destruct Hin as [->|Hin]; [|contradiction].
      rewrite IH2 by now left. rewrite Ht.
      destruct (n <=? j) eqn:E; bool_to_prop; [lia|].
      unfold upd. now rewrite Z.eqb_refl.
    + intros Hout. rewrite IH2, Hi; [reflexivity| |]; destruct Hout as [Hn|Hn];
        try (now right).
      * left. intros ->. apply Hn. now left.
      * left. intros Hs. apply Hn. now right.
Qed.

(** X8: a forward launch overwrites.  Whatever the schedule (a thread may
    even run more than once) and whatever [out] held before, every
    scheduled index below the output element count holds the value its
    thread computes from the input alone, and every other element of
    [out] is unchanged. *)
Theorem pool_forward_launch_overwrites {T : Type} {S : Scalar T} (op : Pool2dOp)
    (inp_strides out_strides : list Z) (inp_buf out_buf other : buf T)
    (sched : list Z) (j : Z) :
  (In j sched -> j < numel_out op ->
   launch_forward (avg_pool2d_forward op inp_strides out_strides inp_buf) sched out_buf j
     = avg_pool2d_forward op inp_strides out_strides inp_buf other j j /\
   launch_forward (max_pool2d_forward op inp_strides out_strides inp_buf) sched out_buf j
     = max_pool2d_forward op inp_strides out_strides inp_buf other j j /\
   launch_forward (min_pool2d_forward op inp_strides out_strides inp_buf) sched out_buf j
     = min_pool2d_forward op inp_strides out_strides inp_buf other j j) /\
  (~ In j sched \/ numel_out op <= j ->
   launch_forward (avg_pool2d_forward op inp_strides out_strides inp_buf) sched out_buf j
     = out_buf j /\
   launch_forward (max_pool2d_forward op inp_strides out_strides inp_buf) sched out_buf j
     = out_buf j /\
   launch_forward (min_pool2d_forward op inp_strides out_strides inp_buf) sched out_buf j
     = out_buf j).
Proof.
  assert (A : forall o i,
             avg_pool2d_forward op inp_strides out_strides inp_buf o i =
             if numel_out op <=? i then o
             else upd o i (avg_pool2d_forward op inp_strides out_strides inp_buf other i i)).
  { intros o i. unfold avg_pool2d_forward. destruct (numel_out op <=? i); [reflexivity|].
    destruct (decode4 i (batch op) (chan op) (h_out op) (w_out op)) as [[[b c] oh] ow].
    f_equal. unfold upd. now rewrite Z.eqb_refl. }
  assert (B : forall o i,
             max_pool2d_forward op inp_strides out_strides inp_buf o i =
             if numel_out op <=? i then o
             else upd o i (max_pool2d_forward op inp_strides out_strides inp_buf other i i)).
  { intros o i. unfold max_pool2d_forward. destruct (numel_out op <=? i); [reflexivity|].
    destruct (decode4 i (batch op) (chan op) (h_out op) (w_out op)) as [[[b c] oh] ow].
    f_equal. unfold upd. now rewrite Z.eqb_refl. }
  assert (C : forall o i,
             min_pool2d_forward op inp_strides out_strides inp_buf o i =
             if numel_out op <=? i then o
             else upd o i (min_pool2d_forward op inp_strides out_strides inp_buf other i i)).
  { intros o i. unfold min_pool2d_forward. destruct (numel_out op <=? i); [reflexivity|].
    destruct (decode4 i (batch op) (chan op) (h_out op) (w_out op)) as [[[b c] oh] ow].
    f_equal. unfold upd. now rewrite Z.eqb_refl. }
  destruct (launch_forward_overwrites _ _ _ sched out_buf j A) as [A1 A2].
  destruct (launch_forward_overwrites _ _ _ sched out_buf j B) as [B1 B2].
  destruct (launch_forward_overwrites _ _ _ sched out_buf j C) as [C1 C2].
  split; intros; repeat split; auto.
Qed.

(* ================================================================= *)
(** ** Division by a zero stride *)

Lemma zrange_cons (n : Z) :
  0 < n -> exists l, zrange n = 0 :: l.
Proof.
  intros Hn. unfold zrange. destruct (Z.to_nat n) as [|k] eqn:E; [lia|].
  cbn [seq map]. eauto.
Qed.

Lemma zrange_nil (n : Z) : n <= 0 -> zrange n = [].
Proof.
  intros Hn. unfold zrange. replace (Z.to_nat n) with 0%nat by lia. reflexivity.
Qed.

Lemma fold_left_none {A B : Type} (body : A -> B -> option A) (l : list B) :
  fold_left (fun acc k => match acc with Some a => body a k | None => None end) l None
  = None.
Proof. induction l as [|k l IH]; cbn [fold_left]; [reflexivity|exact IH]. Qed.

(** A window loop whose first iteration is undefined is undefined. *)
Lemma window_loop_opt_first_undefined {A : Type} (n : Z)
    (body : A -> Z -> Z -> option A) (init : A) :
  0 < n -> body init 0 0 = None -> window_loop_opt n body init = None.
Proof.
  intros Hn Hb. unfold window_loop_opt. rewrite window_loop_offsets. unfold offsets.
  destruct (zrange_cons n Hn) as [l ->]. cbn [flat_map map app fold_left fst snd].
  rewrite Hb. apply fold_left_none.
Qed.

Lemma window_loop_opt_empty {A : Type} (n : Z) (body : A -> Z -> Z -> option A)
    (init : A) :
  n <= 0 -> window_loop_opt n body init = Some init.
Proof.
  intros Hn. unfold window_loop_opt, window_loop. now rewrite zrange_nil.
Qed.

Lemma bwd_candidate_zero_stride (op : Pool2dOp) (y x : Z) :
  stride op = 0 -> bwd_candidate op y x 0 0 = Undefined.
Proof.
  intros Hs. unfold bwd_candidate.
  pose proof (wrap64_range (y + padding op)) as R. unfold add64.
  destruct (wrap64 (y + padding op) <? 0) eqn:E; bool_to_prop; [lia|].
  rewrite Hs. reflexivity.
Qed.

(** X9: a backward thread below the input element count is undefined (it
    takes a remainder by zero) exactly when the stride is zero and the
    kernel is not empty; in every other case it returns. *)
Theorem pool_backward_undefined_iff {T : Type} {S : Scalar T} (op : Pool2dOp)
    (inp_strides out_strides : list Z) (m : pool_mem) (i : Z) :
  i < numel_in op ->
  (avg_pool2d_backward op inp_strides out_strides m i = None <->
   stride op = 0 /\ 0 < kernel op) /\
  (max_pool2d_backward op inp_strides out_strides m i = None <->
   stride op = 0 /\ 0 < kernel op) /\
  (min_pool2d_backward op inp_strides out_strides m i = None <->
   stride op = 0 /\ 0 < kernel op).
Proof.
  intros Hi.
  destruct (Z.eq_dec (stride op) 0) as [Hs|Hs].
  - destruct (Z_lt_le_dec 0 (kernel op)) as [Hk|Hk].
    + assert (Ea : avg_backward_tmp op out_strides m i = None).
      { unfold avg_backward_tmp.
        destruct (decode4 i (batch op) (chan op) (h_in op) (w_in op)) as [[[b c] y] x].
        apply window_loop_opt_first_undefined; [exact Hk|].
        now rewrite bwd_candidate_zero_stride. }
      assert (Es : select_backward_tmp op out_strides m i = None).
      { unfold select_backward_tmp.
        destruct (decode4 i (batch op) (chan op) (h_in op) (w_in op)) as [[[b c] y] x].
        apply window_loop_opt_first_undefined; [exact Hk|].
        now rewrite bwd_candidate_zero_stride. }
      unfold avg_pool2d_backward, max_pool2d_backward, min_pool2d_backward.
      destruct (numel_in op <=? i) eqn:E; bool_to_prop; [lia|].
      rewrite Ea, Es. repeat split; auto.
    + assert (Ea : avg_backward_tmp op out_strides m i = Some fzero).
      { unfold avg_backward_tmp.
        destruct (decode4 i (batch op) (chan op) (h_in op) (w_in op)) as [[[b c] y] x].
        now apply window_loop_opt_empty. }
      assert (Es : select_backward_tmp op out_strides m i = Some fzero).
      { unfold select_backward_tmp.
        destruct (decode4 i (batch op) (chan op) (h_in op) (w_in op)) as [[[b c] y] x].
        now apply window_loop_opt_empty. }
      unfold avg_pool2d_backward, max_pool2d_backward, min_pool2d_backward.
      destruct (numel_in op <=? i) eqn:E; bool_to_prop; [lia|].
      rewrite Ea, Es. repeat split; try discriminate; intros [_ H]; lia.
  - rewrite (avg_pool2d_backward_thread op inp_strides out_strides Hs),
      (max_pool2d_backward_thread op inp_strides out_strides Hs),
      (min_pool2d_backward_thread op inp_strides out_strides Hs).
    repeat split; try discriminate; intros [H _]; contradiction.
Qed.

Lemma pool_backward_undefined_iff_witness :
  @avg_pool2d_backward _ binary32
    {| kernel := 2; stride := 0; padding := 0; batch := 1; chan := 1;
       h_in := 2; h_out := 1; w_in := 2; w_out := 1 |}
    [4; 4; 2; 1] [1; 1; 1; 1] tie_mem 3 = None.
Proof.
  apply (proj1 (@pool_backward_undefined_iff _ binary32
                  {| kernel := 2; stride := 0; padding := 0; batch := 1; chan := 1;
                     h_in := 2; h_out := 1; w_in := 2; w_out := 1 |}
                  [4; 4; 2; 1] [1; 1; 1; 1] tie_mem 3 eq_refl)).
  split; reflexivity.
Defined.

(* ================================================================= *)
(** ** Binary division, forward *)

(** X10: after a launch of [binary_div_forward] under any schedule, an
    element of [out] that no scheduled thread below [numel] maps to is
    unchanged; every element is either unchanged or the quotient
    [lhs / rhs] of a scheduled thread that maps to it; and an element that
    exactly one scheduled thread maps to holds the quotient of that
    thread. *)
Theorem binary_div_forward_launch {T : Type} {S : Scalar T} (a : @div_args T)
    (sched : list Z) (out_buf : buf T) :
  (forall o, (forall i, In i sched -> numel a <= i \/ out_index a i <> o) ->
             launch_forward (binary_div_forward a) sched out_buf o = out_buf o) /\
  (forall o, launch_forward (binary_div_forward a) sched out_buf o = out_buf o \/
             exists i, In i sched /\ i < numel a /\ out_index a i = o /\
                       launch_forward (binary_div_forward a) sched out_buf o =
                       fdiv (lhs a (lhs_index a i)) (rhs a (rhs_index a i))) /\
  (forall i, In i sched -> i < numel a ->
             (forall i', In i' sched -> i' < numel a ->
                         out_index a i' = out_index a i -> i' = i) ->
             launch_forward (binary_div_forward a) sched out_buf (out_index a i) =
             fdiv (lhs a (lhs_index a i)) (rhs a (rhs_index a i))).
Proof.
  unfold launch_forward.
  induction sched as [|i0 sched IH] using rev_ind.
  - cbn [fold_left]. split; [reflexivity|]. split; [now left|]. intros i [].
  - destruct IH as [IH1 [IH2 IH3]]. rewrite fold_left_app. cbn [fold_left].
    set (r := fold_left (binary_div_forward a) sched out_buf) in *.
    assert (Hw : forall o, i0 < numel a -> out_index a i0 = o ->
                 binary_div_forward a r i0 o =
                 fdiv (lhs a (lhs_index a i0)) (rhs a (rhs_index a i0))).
    { intros o Hlt Ho. unfold binary_div_forward.
      destruct (numel a <=? i0) eqn:E; bool_to_prop; [lia|].
      unfold upd. rewrite <- Ho, Z.eqb_refl. reflexivity. }
    assert (Hn : forall o, numel a <= i0 \/ out_index a i0 <> o ->
                 binary_div_forward a r i0 o = r o).
    { intros o Ho. unfold binary_div_forward.
      destruct (numel a <=? i0) eqn:E; bool_to_prop; [reflexivity|].
      apply upd_other. destruct Ho as [Ho|Ho]; [lia|congruence]. }
    split; [|split].
    + intros o Hno. rewrite Hn by (apply Hno, in_or_app; right; now left).
      apply IH1. intros i Hi. apply Hno, in_or_app. now left.
    + intros o.
      destruct (Z_lt_le_dec i0 (numel a)) as [Hlt|Hge];
        [destruct (Z.eq_dec (out_index a i0) o) as [Ho|Ho]|].
      * right. exists i0. split; [apply in_or_app; right; now left|].
        split; [exact Hlt|]. split; [exact Ho|]. now apply Hw.
      * rewrite Hn by now right. destruct (IH2 o) as [E|[i [Hi [Hl [Ho' E]]]]];
          [now left|right]. exists i. repeat split; auto. apply in_or_app. now left.
      * rewrite Hn by now left. destruct (IH2 o) as [E|[i [Hi [Hl [Ho' E]]]]];
          [now left|right]. exists i. repeat split; auto. apply in_or_app. now left.
    + intros i Hi Hlt Huniq.
      destruct (Z_lt_le_dec i0 (numel a)) as [Hlt0|Hge];
        [destruct (Z.eq_dec (out_index a i0) (out_index a i)) as [Ho|Ho]|].
      * assert (i0 = i) by (apply Huniq; auto; apply in_or_app; right; now left).
        subst i0. now apply Hw.
      * rewrite Hn by now right. apply IH3.
        -- apply in_app_or in Hi. destruct Hi as [Hi|[->|[]]]; [exact Hi|congruence].
        -- exact Hlt.
        -- intros i' Hi'. apply Huniq, in_or_app. now left.
      * rewrite Hn by now left. apply IH3.
        -- apply in_app_or in Hi. destruct Hi as [Hi|[->|[]]]; [exact Hi|lia].
        -- exact Hlt.
        -- intros i' Hi'. apply Huniq, in_or_app. now left.
Qed.

(* ================================================================= *)
(** ** The order of the IEEE comparison *)

Ltac compare_cases :=
  repeat match goal with
  | H : context [Pos.compare_cont Eq ?a ?b] |- _ =>
      change (Pos.compare_cont Eq a b) with (Pos.compare a b) in H
  | |- context [Pos.compare_cont Eq ?a ?b] =>
      change (Pos.compare_cont Eq a b) with (Pos.compare a b)
  end;
  repeat match goal with
  | H : context [Z.compare ?a ?b] |- _ => destruct (Z.compare_spec a b)
  | |- context [Z.compare ?a ?b] => destruct (Z.compare_spec a b)
  | H : context [Pos.compare ?a ?b] |- _ => destruct (Pos.compare_spec a b)
  | |- context [Pos.compare ?a ?b] => destruct (Pos.compare_spec a b)
  end.

Lemma SFcompare_refl (x : spec_float) :
  SFis_nan x = false -> SFcompare x x = Some Eq.
Proof.
  destruct x as [[|]|[|]| |[|] m e]; cbn; try reflexivity; try discriminate;
    intros _; rewrite Z.compare_refl, Pos.compare_cont_refl; reflexivity.
Qed.

Lemma SFcompare_antisym (a b : spec_float) (c : comparison) :
  SFcompare a b = Some c -> SFcompare b a = Some (CompOpp c).
Proof.
  destruct a as [[|]|[|]| |[|] m e], b as [[|]|[|]| |[|] m' e']; cbn;
    intros H; inversion H; subst; try reflexivity;
    compare_cases; cbn; try reflexivity; try lia; subst; try lia.
Qed.

Lemma SFleb_trans (a b c : spec_float) :
  SFleb a b = true -> SFleb b c = true -> SFleb a c = true.
Proof.
  unfold SFleb.
  destruct a as [[|]|[|]| |[|] m1 e1], b as [[|]|[|]| |[|] m2 e2],
    c as [[|]|[|]| |[|] m3 e3]; cbn; intros H1 H2;
    try reflexivity; try discriminate;
    compare_cases; cbn in *; try reflexivity; try discriminate; try lia; subst; lia.
Qed.

Lemma SFleb_refl (x : spec_float) : SFis_nan x = false -> SFleb x x = true.
Proof. intros H. unfold SFleb. now rewrite SFcompare_refl. Qed.

Lemma SFcompare_none (a b : spec_float) :
  SFcompare a b = None -> SFis_nan a = true \/ SFis_nan b = true.
Proof.
  destruct a as [[|]|[|]| |[|] m e], b as [[|]|[|]| |[|] m' e']; cbn;
    intros H; try discriminate; auto.
Qed.

Lemma SFmax_select (a b : spec_float) : SFmax a b = a \/ SFmax a b = b.
Proof.
  unfold SFmax. destruct (SFcompare a b) as [[| |]|]; auto.
  - destruct a as [[|]| | |]; auto.
  - destruct (SFis_nan a); auto.
Qed.

Lemma SFmin_select (a b : spec_float) : SFmin a b = a \/ SFmin a b = b.
Proof.
  unfold SFmin. destruct (SFcompare a b) as [[| |]|]; auto.
  - destruct a as [[|]| | |]; auto.
  - destruct (SFis_nan a); auto.
Qed.

(** The maximum of a number and anything is a number at least as large
    as both, as far as they are numbers. *)
Lemma SFmax_upper (a b : spec_float) :
  SFis_nan a = false ->
  SFis_nan (SFmax a b) = false /\
  SFleb a (SFmax a b) = true /\
  (SFis_nan b = false -> SFleb b (SFmax a b) = true).
Proof.
  intros Ha. unfold SFmax. destruct (SFcompare a b) as [c|] eqn:E.
  - assert (Hb : SFis_nan b = false)
      by (destruct a as [[|]|[|]| |[|] m e], b as [[|]|[|]| |[|] m' e'];
          cbn in *; congruence).
    pose proof (SFcompare_antisym a b c E) as E'.
    destruct c; cbn [CompOpp] in E'.
    + assert (R : SFleb a b = true /\ SFleb b a = true)
        by (unfold SFleb; rewrite E, E'; auto).
      destruct a as [[|]|s| |s m e]; cbn [SFis_nan] in *; try discriminate;
        repeat split; try tauto; auto using SFleb_refl.
    + repeat split; auto using SFleb_refl. unfold SFleb. now rewrite E.
    + repeat split; auto using SFleb_refl. intros _. unfold SFleb. now rewrite E'.
  - rewrite Ha. repeat split; auto using SFleb_refl.
    intros Hb. apply SFcompare_none in E. destruct E; congruence.
Qed.

Lemma SFmin_lower (a b : spec_float) :
  SFis_nan a = false ->
  SFis_nan (SFmin a b) = false /\
  SFleb (SFmin a b) a = true /\
  (SFis_nan b = false -> SFleb (SFmin a b) b = true).
Proof.
  intros Ha. unfold SFmin. destruct (SFcompare a b) as [c|] eqn:E.
  - assert (Hb : SFis_nan b = false)
      by (destruct a as [[|]|[|]| |[|] m e], b as [[|]|[|]| |[|] m' e'];
          cbn in *; congruence).
    pose proof (SFcompare_antisym a b c E) as E'.
    destruct c; cbn [CompOpp] in E'.
    + assert (R : SFleb a b = true /\ SFleb b a = true)
        by (unfold SFleb; rewrite E, E'; auto).
      destruct a as [[|]|s| |s m e]; cbn [SFis_nan] in *; try discriminate;
        repeat split; try tauto; auto using SFleb_refl.
    + repeat split; auto using SFleb_refl. intros _. unfold SFleb. now rewrite E.
    + repeat split; auto using SFleb_refl. unfold SFleb. now rewrite E'.
  - rewrite Ha. repeat split; auto using SFleb_refl.
    intros Hb. apply SFcompare_none in E. destruct E; congruence.
Qed.

(** A running maximum from negative infinity. *)
Lemma fold_SFmax (l : list spec_float) (acc : spec_float) :
  SFis_nan acc = false ->
  let r := fold_left SFmax l acc in
  SFis_nan r = false /\
  SFleb acc r = true /\
  (forall v, In v l -> SFis_nan v = false -> SFleb v r = true) /\
  (r = acc \/ In r l).
Proof.
  revert acc. induction l as [|v l IH]; intros acc Ha; cbn [fold_left].
  - cbv zeta. repeat split; auto using SFleb_refl; intros v [].
  - destruct (SFmax_upper acc v Ha) as [N [U1 U2]].
    destruct (IH (SFmax acc v) N) as [I1 [I2 [I3 I4]]]. cbv zeta in *.
    repeat split; auto.
    + now apply (SFleb_trans acc (SFmax acc v)).
    + intros w [->|Hw] Hn; [|now apply I3].
      apply (SFleb_trans w (SFmax acc w)); auto.
    + destruct I4 as [I4|I4]; [|right; now right].
      rewrite I4. destruct (SFmax_select acc v) as [->| ->]; [now left|right; now left].
Qed.

Lemma fold_SFmin (l : list spec_float) (acc : spec_float) :
  SFis_nan acc = false ->
  let r := fold_left SFmin l acc in
  SFis_nan r = false /\
  SFleb r acc = true /\
  (forall v, In v l -> SFis_nan v = false -> SFleb r v = true) /\
  (r = acc \/ In r l).
Proof.
  revert acc. induction l as [|v l IH]; intros acc Ha; cbn [fold_left].
  - cbv zeta. repeat split; auto using SFleb_refl; intros v [].
  - destruct (SFmin_lower acc v Ha) as [N [U1 U2]].
    destruct (IH (SFmin acc v) N) as [I1 [I2 [I3 I4]]]. cbv zeta in *.
    repeat split; auto.
    + now apply (SFleb_trans _ (SFmin acc v)).
    + intros w [->|Hw] Hn; [|now apply I3].
      apply (SFleb_trans _ (SFmin acc w)); auto.
    + destruct I4 as [I4|I4]; [|right; now right].
      rewrite I4. destruct (SFmin_select acc v) as [->| ->]; [now left|right; now left].
Qed.

(** A number above negative infinity replaces it. *)
Lemma fold_SFmax_reached (l : list spec_float) :
  (exists v, In v l /\ SFis_nan v = false) ->
  In (fold_left SFmax l (S754_infinity true)) l.
Proof.
  intros [v [Hv Hn]].
  destruct (fold_SFmax l (S754_infinity true) eq_refl) as [_ [_ [U [E|E]]]];
    cbv zeta in *; [|exact E].
  specialize (U v Hv Hn). rewrite E in *.
  destruct v as [[|]|[|]| |[|] m e]; cbn in U, Hn; try discriminate. exact Hv.
Qed.

Lemma fold_SFmin_reached (l : list spec_float) :
  (exists v, In v l /\ SFis_nan v = false) ->
  In (fold_left SFmin l (S754_infinity false)) l.
Proof.
  intros [v [Hv Hn]].
  destruct (fold_SFmin l (S754_infinity false) eq_refl) as [_ [_ [U [E|E]]]];
    cbv zeta in *; [|exact E].
  specialize (U v Hv Hn). rewrite E in *.
  destruct v as [[|]|[|]| |[|] m e]; cbn in U, Hn; try discriminate. exact Hv.
Qed.

(* ================================================================= *)
(** ** Max and min pooling, forward *)

(** X11: in either floating-point format the output of max-pool forward
    is never NaN; it is at least every number its window reads; and it is
    one of the values read as soon as one of them is a number, and
    negative infinity otherwise.  NaN inputs are ignored by [fmax]. *)
Theorem max_pool2d_forward_is_maximum (prec emax : Z) (op : Pool2dOp)
    (inp_strides out_strides : list Z) (inp_buf out_buf : buf spec_float)
    (i b c oh ow : Z) :
  i < numel_out op ->
  decode4 i (batch op) (chan op) (h_out op) (w_out op) = (b, c, oh, ow) ->
  let r := @max_pool2d_forward _ (ieee prec emax) op inp_strides out_strides
             inp_buf out_buf i i in
  let vals := map (fun p => inp_buf (strided4 inp_strides b c (fst p) (snd p)))
                  (fwd_inputs op oh ow) in
  SFis_nan r = false /\
  (forall v, In v vals -> SFis_nan v = false -> SFleb v r = true) /\
  ((exists v, In v vals /\ SFis_nan v = false) -> In r vals) /\
  ((forall v, In v vals -> SFis_nan v = true) -> r = S754_infinity true).
Proof.
  intros Hi Hdec r vals.
  assert (Hr : r = fold_left SFmax vals (S754_infinity true)).
  { subst r vals. unfold max_pool2d_forward.
    destruct (numel_out op <=? i) eqn:E; bool_to_prop; [lia|].
    rewrite Hdec. unfold upd. rewrite Z.eqb_refl.
    rewrite forward_loop_inputs. cbn [maxNonAtomic fneg finfinity ieee SFopp negb].
    generalize (fwd_inputs op oh ow) (S754_infinity true). intros l.
    induction l as [|p l IH]; intros acc; cbn [map fold_left]; [reflexivity|apply IH]. }
  destruct (fold_SFmax vals (S754_infinity true) eq_refl) as [N [_ [U Sel]]].
  cbv zeta in *. rewrite <- Hr in *. repeat split; auto.
  - intros Hex. rewrite Hr. now apply fold_SFmax_reached.
  - intros Hnan. destruct Sel as [E|E]; [exact E|].
    specialize (Hnan r E). congruence.
Qed.

Lemma max_pool2d_forward_is_maximum_witness :
  let inp_buf := buf_of_list S754_nan
                   (map (SFof_size_t 24 128)
                      [1; 2; 3; 4; 5; 6; 7; 8; 9; 10; 11; 12; 13; 14; 15; 16]) in
  let r := @max_pool2d_forward _ binary32 padded_op [16; 16; 4; 1] [9; 9; 3; 1]
             inp_buf (fun _ => S754_nan) 4 4 in
  let vals := map (fun p => inp_buf (strided4 [16; 16; 4; 1] 0 0 (fst p) (snd p)))
                  (fwd_inputs padded_op 1 1) in
  SFis_nan r = false /\
  (forall v, In v vals -> SFis_nan v = false -> SFleb v r = true) /\
  ((exists v, In v vals /\ SFis_nan v = false) -> In r vals) /\
  ((forall v, In v vals -> SFis_nan v = true) -> r = S754_infinity true).
Proof.
  intros inp_buf.
  apply (max_pool2d_forward_is_maximum 24 128 padded_op [16; 16; 4; 1] [9; 9; 3; 1]
           inp_buf (fun _ => S754_nan) 4 0 0 1 1); reflexivity.
Defined.

(** X12: symmetrically, the output of min-pool forward is never NaN, is
    at most every number its window reads, and is one of the values read
    as soon as one of them is a number, and positive infinity
    otherwise. *)
Theorem min_pool2d_forward_is_minimum (prec emax : Z) (op : Pool2dOp)
    (inp_strides out_strides : list Z) (inp_buf out_buf : buf spec_float)
    (i b c oh ow : Z) :
  i < numel_out op ->
  decode4 i (batch op) (chan op) (h_out op) (w_out op) = (b, c, oh, ow) ->
  let r := @min_pool2d_forward _ (ieee prec emax) op inp_strides out_strides
             inp_buf out_buf i i in
  let vals := map (fun p => inp_buf (strided4 inp_strides b c (fst p) (snd p)))
                  (fwd_inputs op oh ow) in
  SFis_nan r = false /\
  (forall v, In v vals -> SFis_nan v = false -> SFleb r v = true) /\
  ((exists v, In v vals /\ SFis_nan v = false) -> In r vals) /\
  ((forall v, In v vals -> SFis_nan v = true) -> r = S754_infinity false).
Proof.
  intros Hi Hdec r vals.
  assert (Hr : r = fold_left SFmin vals (S754_infinity false)).
  { subst r vals. unfold min_pool2d_forward.
    destruct (numel_out op <=? i) eqn:E; bool_to_prop; [lia|].
    rewrite Hdec. unfold upd. rewrite Z.eqb_refl.
    rewrite forward_loop_inputs. cbn [minNonAtomic finfinity ieee].
    generalize (fwd_inputs op oh ow) (S754_infinity false). intros l.
    induction l as [|p l IH]; intros acc; cbn [map fold_left]; [reflexivity|apply IH]. }
  destruct (fold_SFmin vals (S754_infinity false) eq_refl) as [N [_ [U Sel]]].
  cbv zeta in *. rewrite <- Hr in *. repeat split; auto.
  - intros Hex. rewrite Hr. now apply fold_SFmin_reached.
  - intros Hnan. destruct Sel as [E|E]; [exact E|].
    specialize (Hnan r E). congruence.
Qed.

Lemma min_pool2d_forward_is_minimum_witness :
  let inp_buf := buf_of_list S754_nan
                   (map (SFof_size_t 24 128)
                      [1; 2; 3; 4; 5; 6; 7; 8; 9; 10; 11; 12; 13; 14; 15; 16]) in
  let r := @min_pool2d_forward _ binary32 padded_op [16; 16; 4; 1] [9; 9; 3; 1]
             inp_buf (fun _ => S754_nan) 4 4 in
  let vals := map (fun p => inp_buf (strided4 [16; 16; 4; 1] 0 0 (fst p) (snd p)))
                  (fwd_inputs padded_op 1 1) in
  SFis_nan r = false /\
  (forall v, In v vals -> SFis_nan v = false -> SFleb r v = true) /\
  ((exists v, In v vals /\ SFis_nan v = false) -> In r vals) /\
  ((forall v, In v vals -> SFis_nan v = true) -> r = S754_infinity false).
Proof.
  intros inp_buf.
  apply (min_pool2d_forward_is_minimum 24 128 padded_op [16; 16; 4; 1] [9; 9; 3; 1]
           inp_buf (fun _ => S754_nan) 4 0 0 1 1); reflexivity.
Defined.

(* ================================================================= *)
(** ** Max pooling: forward, then backward *)

Lemma numel_out_count (op : Pool2dOp) :
  0 < batch op -> 0 < chan op -> 0 < h_out op -> 0 < w_out op ->
  count_out op < 2 ^ 64 -> numel_out op = count_out op.
Proof.
  intros Hb Hc Hh Hw Hfit. unfold numel_out, count_out, mul64 in *.
  assert (0 < batch op * chan op) by nia.
  assert (0 < batch op * chan op * h_out op) by nia.
  assert (batch op * chan op <= batch op * chan op * h_out op) by nia.
  assert (batch op * chan op * h_out op <= batch op * chan op * h_out op * w_out op)
    by nia.
  rewrite (wrap64_small (batch op * chan op)) by lia.
  rewrite (wrap64_small (batch op * chan op * h_out op)) by lia.
  apply wrap64_small. nia.
Qed.

Lemma numel_in_count (op : Pool2dOp) :
  0 < batch op -> 0 < chan op -> 0 < h_in op -> 0 < w_in op ->
  count_in op < 2 ^ 64 -> numel_in op = count_in op.
Proof.
  intros Hb Hc Hh Hw Hfit. unfold numel_in, count_in, mul64 in *.
  assert (0 < batch op * chan op) by nia.
  assert (0 < batch op * chan op * h_in op) by nia.
  assert (batch op * chan op <= batch op * chan op * h_in op) by nia.
  assert (batch op * chan op * h_in op <= batch op * chan op * h_in op * w_in op)
    by nia.
  rewrite (wrap64_small (batch op * chan op)) by lia.
  rewrite (wrap64_small (batch op * chan op * h_in op)) by lia.
  apply wrap64_small. nia.
Qed.

(** Without wrap-around the guards of the two window loops accept the
    same pairs of positions at the same offsets. *)
Lemma window_guards_agree (op : Pool2dOp) (oh ow k1 k2 y x : Z) :
  wf_op op -> 0 < stride op -> no_wrap op ->
  0 <= y < h_in op -> 0 <= x < w_in op ->
  0 <= oh < h_out op -> 0 <= ow < w_out op ->
  0 <= k1 < kernel op -> 0 <= k2 < kernel op ->
  (bwd_candidate op y x k1 k2 = Visited oh ow <->
   fwd_window op oh ow k1 k2 = Some (y, x)).
Proof.
  intros Hwf Hs [Hnh [Hnw [Hoh How]]] Ry Rx Ro1 Ro2 Rk1 Rk2.
  destruct Hwf as [_ [_ [[Hp _] _]]].
  specialize (Hoh oh k1 Ro1 Rk1). specialize (How ow k2 Ro2 Rk2).
  rewrite bwd_candidate_visited, fwd_window_some by lia.
  pose proof (stride_division (stride op) (y + padding op - k1) oh Hs) as D1.
  pose proof (stride_division (stride op) (x + padding op - k2) ow Hs) as D2.
  assert (0 <= oh * stride op) by (apply Z.mul_nonneg_nonneg; lia).
  assert (0 <= ow * stride op) by (apply Z.mul_nonneg_nonneg; lia).
  split.
  - intros [[A1 [A2 [A3 A4]]] [B1 [B2 [B3 B4]]]].
    assert (y + padding op - k1 = oh * stride op) by (apply D1; auto).
    assert (x + padding op - k2 = ow * stride op) by (apply D2; auto).
    lia.
  - intros [[A1 [A2 A3]] [B1 [B2 B3]]].
    assert (E1 : y + padding op - k1 = oh * stride op) by lia.
    assert (E2 : x + padding op - k2 = ow * stride op) by lia.
    apply D1 in E1. apply D2 in E2. lia.
Qed.

(** X13: forward and backward of max-pool fit together on contiguous
    tensors.  When [out] holds the forward result at an output index whose
    window reads at least one number, some input index in that window
    holds a value equal to it, and the backward thread of that input index
    selects this output index: the output gradient reaches at least one
    input. *)
Theorem max_pool2d_gradient_reaches_input (prec emax : Z) (op : Pool2dOp)
    (m : @pool_mem spec_float) (io b c oh ow : Z) :
  wf_op op -> 0 < stride op -> no_wrap op ->
  count_in op < 2 ^ 32 -> count_out op < 2 ^ 32 ->
  0 <= io < numel_out op ->
  decode4 io (batch op) (chan op) (h_out op) (w_out op) = (b, c, oh, ow) ->
  out m io = @max_pool2d_forward _ (ieee prec emax) op (inp_contiguous op)
               (out_contiguous op) (inp m) (out m) io io ->
  (exists p, In p (fwd_inputs op oh ow) /\
             SFis_nan (inp m (strided4 (inp_contiguous op) b c (fst p) (snd p))) = false) ->
  exists ii y x,
    0 <= ii < numel_in op /\
    decode4 ii (batch op) (chan op) (h_in op) (w_in op) = (b, c, y, x) /\
    covers op oh ow y x /\
    SFeqb (out m io) (inp m ii) = true /\
    In io (@selected_offsets _ (ieee prec emax) op (out_contiguous op) m ii).
Proof.
  intros Hwf Hs Hnw Hcin Hcout Hio Hdec Hout [p0 [Hp0 Hn0]].
  destruct (numel_out_dims op io Hwf Hio) as [Pb [Pc [Ph Pw]]].
  assert (Hno : numel_out op = count_out op) by (apply numel_out_count; lia).
  assert (Hio' : 0 <= io < batch op * chan op * h_out op * w_out op)
    by (unfold count_out in *; lia).
  assert (Hio32 : io < 2 ^ 32) by (unfold count_out in *; lia).
  destruct (decode4_flat io (batch op) (chan op) (h_out op) (w_out op) b c oh ow
              Pc Ph Pw Hio' Hio32 Hdec) as [[Rb [Rc [Roh Row]]] Eio].
  (* the forward result is one of the values read *)
  set (vals := map (fun p => inp m (strided4 (inp_contiguous op) b c (fst p) (snd p)))
                   (fwd_inputs op oh ow)).
  assert (Hr : out m io = fold_left SFmax vals (S754_infinity true)).
  { rewrite Hout. unfold max_pool2d_forward.
    destruct (numel_out op <=? io) eqn:E; bool_to_prop; [lia|].
    rewrite Hdec. unfold upd. rewrite Z.eqb_refl.
    rewrite forward_loop_inputs. cbn [maxNonAtomic fneg finfinity ieee SFopp negb].
    subst vals. generalize (fwd_inputs op oh ow) (S754_infinity true). intros l.
    induction l as [|p l IH]; intros acc; cbn [map fold_left]; [reflexivity|apply IH]. }
  assert (Hin : In (out m io) vals).
  { rewrite Hr. apply fold_SFmax_reached.
    exists (inp m (strided4 (inp_contiguous op) b c (fst p0) (snd p0))).
    split; [|exact Hn0]. subst vals.
    exact (in_map (fun p => inp m (strided4 (inp_contiguous op) b c (fst p) (snd p)))
             _ p0 Hp0). }
  assert (Hnan : SFis_nan (out m io) = false).
  { rewrite Hr. now apply (fold_SFmax vals (S754_infinity true) eq_refl). }
  apply in_map_iff in Hin. destruct Hin as [[y x] [Hval Hyx]]. cbn [fst snd] in Hval.
  apply in_fwd_inputs in Hyx. pose proof Hyx as Hcov.
  destruct Hyx as [k1 [k2 [Rk1 [Rk2 Hf]]]].
  pose proof (fwd_window_in_bounds op oh ow k1 k2 y x Hf) as [Ry Rx].
  assert (Hpin : 0 < h_in op /\ 0 < w_in op) by lia.
  pose proof (flat_index_bound (batch op) (chan op) (h_in op) (w_in op) b c y x
                Rb Rc Ry Rx) as Hflat.
  set (ii := strided4 (inp_contiguous op) b c y x) in *.
  assert (Eii : ii = ((b * chan op + c) * h_in op + y) * w_in op + x).
  { subst ii. unfold inp_contiguous. apply strided4_contiguous; try lia.
    unfold count_in in *. lia. }
  assert (Hni : numel_in op = count_in op) by (apply numel_in_count; lia).
  assert (Hdi : decode4 ii (batch op) (chan op) (h_in op) (w_in op) = (b, c, y, x)).
  { rewrite Eii. apply decode4_of_flat; try lia. unfold count_in in *. lia. }
  exists ii, y, x. split; [rewrite Hni; unfold count_in in *; lia|].
  split; [exact Hdi|]. split; [exact Hcov|].
  assert (Heq : SFeqb (out m io) (inp m ii) = true).
  { rewrite Hval. unfold SFeqb. now rewrite SFcompare_refl. }
  split; [exact Heq|].
  unfold selected_offsets. apply filter_In. split; [|exact Heq].
  unfold visited_offsets. rewrite Hdi. apply in_map_iff. exists (oh, ow). split.
  - cbn [fst snd]. unfold out_contiguous. rewrite strided4_contiguous; lia.
  - rewrite bwd_visited_select. apply in_flat_map. exists (k1, k2).
    split; [apply in_offsets; lia|]. cbn [fst snd].
    rewrite (proj2 (window_guards_agree op oh ow k1 k2 y x Hwf Hs Hnw
                      Ry Rx Roh Row Rk1 Rk2) Hf).
    now left.
Qed.

Lemma max_pool2d_gradient_reaches_input_witness :
  exists ii y x,
    0 <= ii < numel_in single_window_op /\
    decode4 ii (batch single_window_op) (chan single_window_op)
      (h_in single_window_op) (w_in single_window_op) = (0, 0, y, x) /\
    covers single_window_op 0 0 y x /\
    SFeqb (out tie_mem 0) (inp tie_mem ii) = true /\
    In 0 (@selected_offsets _ binary32 single_window_op
            (out_contiguous single_window_op) tie_mem ii).
Proof.
  apply (max_pool2d_gradient_reaches_input 24 128 single_window_op tie_mem 0 0 0 0 0).
  - unfold wf_op, is_size_t, single_window_op; simpl. lia.
  - reflexivity.
  - unfold no_wrap, single_window_op; simpl. repeat split; intros; lia.
  - vm_compute. reflexivity.
  - vm_compute. reflexivity.
  - vm_compute. split; congruence.
  - reflexivity.
  - vm_compute. reflexivity.
  - exists (0, 0). split; [vm_compute; now left|vm_compute; reflexivity].
Defined.

(* ================================================================= *)
(** ** sqrt and relu at the edges *)

(** X14: sqrt at the edge of its domain, in either format.  A negative
    input gives NaN forward and a NaN derivative; at a zero the forward
    value is that zero and the derivative is an infinity of the same
    sign; at positive infinity the derivative is 0.0. *)
Theorem sqrt_edges (prec emax : Z) (x : spec_float) :
  (SFltb x (S754_zero false) = true ->
   sqrt_forward prec emax x = S754_nan /\ sqrt_derivative prec emax x = S754_nan) /\
  (forall s, x = S754_zero s ->
   sqrt_forward prec emax x = x /\ sqrt_derivative prec emax x = S754_infinity s) /\
  (x = S754_infinity false ->
   sqrt_forward prec emax x = x /\ sqrt_derivative prec emax x = S754_zero false).
Proof.
  unfold sqrt_forward, sqrt_derivative. repeat split.
  - destruct x as [[|]|[|]| |[|] m e]; try discriminate H; reflexivity.
  - destruct x as [[|]|[|]| |[|] m e]; try discriminate H; reflexivity.
  - subst x. reflexivity.
  - subst x. destruct s; reflexivity.
  - subst x. reflexivity.
  - subst x. reflexivity.
Qed.

Lemma sqrt_edges_witness :
  sqrt_forward 24 128 (S754_finite true 12582912 (-22)) = S754_nan /\
  sqrt_derivative 24 128 (S754_finite true 12582912 (-22)) = S754_nan.
Proof.
  exact (proj1 (sqrt_edges 24 128 (S754_finite true 12582912 (-22))) eq_refl).
Defined.

(** X15: relu forward and backward agree, in either format: the forward
    value is the input itself exactly when the derivative is 1.0, that is
    for an input above zero; for every other input, NaN included, the
    forward value is a zero and the derivative is 0.0. *)
Theorem relu_forward_matches_derivative (prec emax : Z) (x : spec_float) :
  (SFltb (S754_zero false) x = true ->
   @relu_forward _ (ieee prec emax) x = x /\
   @relu_derivative _ (ieee prec emax) x = SFone prec emax) /\
  (SFltb (S754_zero false) x = false ->
   (exists s, @relu_forward _ (ieee prec emax) x = S754_zero s) /\
   @relu_derivative _ (ieee prec emax) x = S754_zero false).
Proof.
  unfold relu_forward, relu_derivative. cbn [maxNonAtomic fltb fzero fone ieee].
  split; intros H; rewrite H; (split; [|reflexivity]).
  - destruct x as [[|]|[|]| |[|] m e]; try discriminate H; reflexivity.
  - destruct x as [[|]|[|]| |[|] m e]; try discriminate H; cbn; eauto.
Qed.

Lemma relu_forward_matches_derivative_witness :
  @relu_forward _ binary32 (S754_finite false 12582912 (-22))
    = S754_finite false 12582912 (-22) /\
  (exists s, @relu_forward _ binary32 S754_nan = S754_zero s).
Proof.
  split.
  - exact (proj1 (proj1 (relu_forward_matches_derivative 24 128
                           (S754_finite false 12582912 (-22))) eq_refl)).
  - exact (proj1 (proj2 (relu_forward_matches_derivative 24 128 S754_nan) eq_refl)).
Defined.

(* ================================================================= *)
(** ** NaN in the half-precision maximum *)

(** X16: [__hmax_nan] and [__hmin_nan] return NaN exactly when an
    argument is NaN, provided the intrinsic they fall back to returns a
    number on numbers, and agree with that intrinsic on numbers; the
    [fmax] of the pooling kernels, in contrast, returns NaN only when both
    arguments are NaN. *)
Theorem hmax_nan_propagates (hmax hmin : spec_float -> spec_float -> spec_float)
    (a b : spec_float) :
  (forall u v, SFis_nan u = false -> SFis_nan v = false ->
               SFis_nan (hmax u v) = false /\ SFis_nan (hmin u v) = false) ->
  SFis_nan (hmax_nan hmax a b) = SFis_nan a || SFis_nan b /\
  SFis_nan (hmin_nan hmin a b) = SFis_nan a || SFis_nan b /\
  (SFis_nan a = false -> SFis_nan b = false ->
   hmax_nan hmax a b = hmax a b /\ hmin_nan hmin a b = hmin a b) /\
  SFis_nan (SFmax a b) = SFis_nan a && SFis_nan b /\
  SFis_nan (SFmin a b) = SFis_nan a && SFis_nan b.
Proof.
  intros H. unfold hmax_nan, hmin_nan.
  destruct (SFis_nan a) eqn:Ea, (SFis_nan b) eqn:Eb; cbn [orb andb];
    rewrite ?Ea, ?Eb; repeat split; try discriminate;
    try (now apply H);
    try (destruct a as [[|]|[|]| |[|] m e]; try discriminate Ea;
         destruct b as [[|]|[|]| |[|] m' e']; try discriminate Eb; reflexivity).
  - destruct (SFmax_upper a b Ea) as [N _]. exact N.
  - destruct (SFmin_lower a b Ea) as [N _]. exact N.
Qed.

Lemma hmax_nan_propagates_witness :
  SFis_nan (hmax_nan SFmax S754_nan (S754_zero false)) = true /\
  SFis_nan (SFmax S754_nan (S754_zero false)) = false.
Proof.
  destruct (hmax_nan_propagates SFmax SFmin S754_nan (S754_zero false)) as [A [_ [_ [B _]]]].
  - intros u v Hu Hv. split.
    + now destruct (SFmax_upper u v Hu).
    + now destruct (SFmin_lower u v Hu).
  - split; [exact A|exact B].
Defined.

(* ================================================================= *)
(** ** Average pooling: forward and backward are transposes *)

(** X17: on contiguous tensors, without wrap-around, avg-pool backward is
    the transpose of avg-pool forward.  The forward thread of an output
    index stores the sum of [inp] over the indices it reads, divided by
    kernel*kernel; the backward thread of an input index adds the sum of
    [grad_out] over the indices it reads, divided by kernel*kernel; and
    the forward thread of [io] reads the input index [ii] exactly when
    the backward thread of [ii] reads the output index [io]. *)
Theorem avg_pool2d_backward_transposes_forward {T : Type} {S : Scalar T}
    (op : Pool2dOp) (inp_buf out_buf : buf T) (m : pool_mem) (io ii : Z) :
  wf_op op -> 0 < stride op -> no_wrap op ->
  count_in op < 2 ^ 32 -> count_out op < 2 ^ 32 ->
  0 <= io < numel_out op -> 0 <= ii < numel_in op ->
  avg_pool2d_forward op (inp_contiguous op) (out_contiguous op) inp_buf out_buf io io =
    fdiv (fsum fzero (map inp_buf (forward_reads op (inp_contiguous op) io)))
         (of_size_t (mul64 (kernel op) (kernel op))) /\
  (exists m',
     avg_pool2d_backward op (inp_contiguous op) (out_contiguous op) m ii = Some m' /\
     grad_inp m' ii =
       fadd (grad_inp m ii)
            (fdiv (fsum fzero (map (grad_out m)
                                   (visited_offsets op (out_contiguous op) ii)))
                  (of_size_t (mul64 (kernel op) (kernel op))))) /\
  (In ii (forward_reads op (inp_contiguous op) io) <->
   In io (visited_offsets op (out_contiguous op) ii)).
Proof.
  intros Hwf Hs Hnw Hcin Hcout Hio Hii.
  destruct (numel_out_dims op io Hwf Hio) as [Pb [Pc [Ph Pw]]].
  destruct (numel_in_dims op ii Hwf Hii) as [_ [_ [Qh Qw]]].
  assert (Hno : numel_out op = count_out op) by (apply numel_out_count; lia).
  assert (Hni : numel_in op = count_in op) by (apply numel_in_count; lia).
  destruct (decode4 io (batch op) (chan op) (h_out op) (w_out op))
    as [[[b c] oh] ow] eqn:Hdo.
  destruct (decode4 ii (batch op) (chan op) (h_in op) (w_in op))
    as [[[b' c'] y] x] eqn:Hdi.
  assert (Hio' : 0 <= io < batch op * chan op * h_out op * w_out op)
    by (unfold count_out in *; lia).
  assert (Hii' : 0 <= ii < batch op * chan op * h_in op * w_in op)
    by (unfold count_in in *; lia).
  assert (Hio32 : io < 2 ^ 32) by (unfold count_out in *; lia).
  assert (Hii32 : ii < 2 ^ 32) by (unfold count_in in *; lia).
  destruct (decode4_flat io _ _ _ _ b c oh ow Pc Ph Pw Hio' Hio32 Hdo)
    as [[Rb [Rc [Roh Row]]] Eio].
  destruct (decode4_flat ii _ _ _ _ b' c' y x Pc Qh Qw Hii' Hii32 Hdi)
    as [[Rb' [Rc' [Ry Rx]]] Eii].
  unfold count_in, count_out in *.
  split; [|split].
  - unfold avg_pool2d_forward, forward_reads.
    destruct (numel_out op <=? io) eqn:E; bool_to_prop; [lia|].
    rewrite Hdo. unfold upd. rewrite Z.eqb_refl.
    rewrite forward_loop_inputs, fsum_map, map_map. reflexivity.
  - assert (Hs' : stride op <> 0) by lia.
    rewrite (avg_pool2d_backward_thread op _ _ Hs'). eexists. split; [reflexivity|].
    unfold accumulate_thread, avg_contribution.
    destruct (numel_in op <=? ii) eqn:E; bool_to_prop; [lia|].
    cbn [grad_inp set_grad_inp]. unfold upd. now rewrite Z.eqb_refl.
  - unfold forward_reads, visited_offsets. rewrite Hdo, Hdi. rewrite !in_map_iff. split.
    + intros [[y0 x0] [E Hin]]. cbn [fst snd] in E.
      apply in_fwd_inputs in Hin. destruct Hin as [k1 [k2 [Rk1 [Rk2 Hf]]]].
      pose proof (fwd_window_in_bounds op oh ow k1 k2 y0 x0 Hf) as [Ry0 Rx0].
      pose proof (flat_index_bound (batch op) (chan op) (h_in op) (w_in op) b c y0 x0
                    Rb Rc Ry0 Rx0) as Hflat.
      unfold inp_contiguous in E. rewrite strided4_contiguous in E by lia.
      assert (Hd : decode4 ii (batch op) (chan op) (h_in op) (w_in op) = (b, c, y0, x0))
        by (rewrite <- E; apply decode4_of_flat; lia).
      rewrite Hdi in Hd. inversion Hd; subst b' c' y x.
      exists (oh, ow). cbn [fst snd]. split.
      * unfold out_contiguous. rewrite strided4_contiguous; lia.
      * rewrite bwd_visited_select. apply in_flat_map. exists (k1, k2).
        split; [apply in_offsets; lia|]. cbn [fst snd].
        rewrite (proj2 (window_guards_agree op oh ow k1 k2 y0 x0 Hwf Hs Hnw
                          Ry0 Rx0 Roh Row Rk1 Rk2) Hf).
        now left.
    + intros [[oh0 ow0] [E Hin]]. cbn [fst snd] in E.
      rewrite bwd_visited_select in Hin. apply in_flat_map in Hin.
      destruct Hin as [[k1 k2] [Hk Hsel]]. apply in_offsets in Hk. cbn [fst snd] in Hsel.
      destruct (bwd_candidate op y x k1 k2) as [| |oh1 ow1] eqn:Hc;
        cbn [In] in Hsel; try contradiction.
      destruct Hsel as [Hsel|[]]. inversion Hsel; subst oh1 ow1.
      destruct (bwd_candidate_in_range op y x k1 k2 oh0 ow0 ltac:(lia) ltac:(lia)
                  ltac:(lia) Hc) as [Roh0 Row0].
      pose proof (flat_index_bound (batch op) (chan op) (h_out op) (w_out op)
                    b' c' oh0 ow0 Rb' Rc' Roh0 Row0) as Hflat.
      unfold out_contiguous in E. rewrite strided4_contiguous in E by lia.
      assert (Hd : decode4 io (batch op) (chan op) (h_out op) (w_out op)
                   = (b', c', oh0, ow0))
        by (rewrite <- E; apply decode4_of_flat; lia).
      rewrite Hdo in Hd. inversion Hd; subst b' c' oh0 ow0.
      exists (y, x). cbn [fst snd]. split.
      * unfold inp_contiguous. rewrite strided4_contiguous; lia.
      * apply in_fwd_inputs. exists k1, k2. split; [lia|]. split; [lia|].
        apply (window_guards_agree op oh ow k1 k2 y x Hwf Hs Hnw); auto; lia.
Qed.

Lemma avg_pool2d_backward_transposes_forward_witness :
  In 5 (forward_reads padded_op (inp_contiguous padded_op) 4) <->
  In 4 (visited_offsets padded_op (out_contiguous padded_op) 5).
Proof.
  refine (proj2 (proj2 (@avg_pool2d_backward_transposes_forward _ binary32 padded_op
                          (fun _ => S754_nan) (fun _ => S754_nan) tie_mem 4 5
                          _ _ _ _ _ _ _))).
  - unfold wf_op, is_size_t, padded_op; simpl. lia.
  - reflexivity.
  - unfold no_wrap, padded_op; simpl. repeat split; intros; lia.
  - vm_compute. reflexivity.
  - vm_compute. reflexivity.
  - vm_compute. split; congruence.
  - vm_compute. split; congruence.
Defined.
